(** * MovieLens-AI: the offline recommender pipeline

    A shallow embedding of the three pipeline scripts

    - [src/01_build_mf.py]       (module [BuildMF]):
      pruning, dense index maps and the confidence matrix,
    - [src/05_build_features.py] (module [BuildFeatures]):
      positives, hard and easy negatives, the seeded generator,
    - [src/06_train_lgbm.py]     (module [TrainLgbm]):
      MAP@k and NDCG@k per user group,

    together with the properties the pipeline specification states about
    them.

    Conventions.  A pandas DataFrame is the list of its rows, in row order.
    A Python [dict] is a [gmap], a Python [set] a [gset].  Python
    exceptions are the [Raise] outcomes of [outcome].  Floating-point
    columns are read as exact numbers: rationals ([Qc], [Q]) where the code
    only adds, multiplies and compares them, reals ([R]) where it takes
    logarithms; rounding is not modelled. *)

From Stdlib Require Import ZArith QArith Qcanon Reals Lra Lia Sorted Permutation.
From stdpp Require Import base numbers gmap sets list sorting.

Set Warnings "-clear-no-such-hyp".
Open Scope Z_scope.

(** ** Python exceptions *)

Inductive exn : Set :=
| TypeError    (* wrong number of positional arguments, cast of [None] *)
| KeyError     (* [.loc] on a label that is not in the index *)
| ValueError.  (* bad cast, bad index, shapes that do not broadcast *)

Inductive outcome (A : Type) : Type :=
| Ok (a : A)
| Raise (e : exn).
Arguments Ok {A} a.
Arguments Raise {A} e.

#[global] Instance outcome_ret : MRet outcome := λ A a, Ok a.
#[global] Instance outcome_bind : MBind outcome := λ A B k m,
  match m with
  | Ok a => k a
  | Raise e => Raise e
  end.

(** [mapM_out] runs a fallible function over a list, left to right, and
    stops at the first exception. *)
Fixpoint mapM_out {A B} (f : A → outcome B) (l : list A) : outcome (list B) :=
  match l with
  | [] => Ok []
  | x :: l' => y ← f x; ys ← mapM_out f l'; Ok (y :: ys)
  end.

(** ** pandas and numpy helpers shared by the scripts *)

(** [Series.unique()] and [drop_duplicates]: first occurrences, in order of
    first appearance. *)
Fixpoint unique (l : list Z) : list Z :=
  match l with
  | [] => []
  | x :: l' => x :: filter (λ y, y ≠ x) (unique l')
  end.

(** Number of rows of a column holding the key [x]. *)
Definition count_key (x : Z) (col : list Z) : nat :=
  length (filter (λ y, y = x) col).

(** [Series.value_counts()] as a dictionary: key ↦ number of rows. *)
Definition value_counts (col : list Z) : gmap Z nat :=
  foldr (λ x vc, <[x := S (default 0%nat (vc !! x))]> vc) ∅ col.

(** [astype(np.int32)] on an integer column: two's complement wrap-around. *)
Definition int32 (z : Z) : Z := (z + 2 ^ 31) mod 2 ^ 32 - 2 ^ 31.

(** [astype(np.int8)]. *)
Definition int8 (z : Z) : Z := (z + 2 ^ 7) mod 2 ^ 8 - 2 ^ 7.

(** Stable insertion sort by a boolean "less or equal" on keys. *)
Section Sort.
Context {A : Type} (le : A → A → bool).

Fixpoint insert_sorted (x : A) (l : list A) : list A :=
  match l with
  | [] => [x]
  | y :: l' => if le x y then x :: y :: l' else y :: insert_sorted x l'
  end.

Definition stable_sort (l : list A) : list A := foldr insert_sorted [] l.

End Sort.

(** [df.groupby(key)]: one group per distinct key, keys ascending, each
    group keeping the frame's row order. *)
Definition groupby {A : Type} (key : A → Z) (df : list A) : list (Z * list A) :=
  (λ u, (u, filter (λ x, key x = u) df)) <$> stable_sort Z.leb (unique (key <$> df)).

(** * [01_build_mf.py]: pruning, index maps, confidence matrix *)

Module BuildMF.

(** One row of the ratings CSV (the columns the script reads). *)
Record Interaction : Type := mkInteraction {
  userId  : Z;
  movieId : Z;
  rating  : Qc;
}.

#[global] Instance Interaction_eq_dec : EqDecision Interaction.
Proof. solve_decision. Defined.

(** The command-line arguments that reach the matrix. *)
Record Args : Type := mkArgs {
  alpha        : Qc;
  min_user_cnt : Z;
  min_item_cnt : Z;
}.

(** [scipy.sparse.coo_matrix]: the shape and the (row, col, value)
    triplets as given, duplicates included. *)
Record coo_matrix : Type := mkCoo {
  shape   : Z * Z;
  entries : list (Z * Z * Qc);
}.

(** [vc[vc >= n].index] turned into a set. *)
Definition keep_set (vc : gmap Z nat) (n : Z) : gset Z :=
  dom (filter (λ kc, n ≤ Z.of_nat kc.2) vc).

(** Step 2 of [main], first filter (lines 81-84). *)
Definition prune_users (args : Args) (ratings : list Interaction) : list Interaction :=
  if decide (0 < min_user_cnt args) then
    let vc := value_counts (userId <$> ratings) in
    let keep_u := keep_set vc (min_user_cnt args) in
    filter (λ x, userId x ∈ keep_u) ratings
  else ratings.

(** Step 2 of [main], second filter (lines 86-89): [ratings] is by now the
    frame the first filter left. *)
Definition prune_items (args : Args) (ratings : list Interaction) : list Interaction :=
  if decide (0 < min_item_cnt args) then
    let vc := value_counts (movieId <$> ratings) in
    let keep_i := keep_set vc (min_item_cnt args) in
    filter (λ x, movieId x ∈ keep_i) ratings
  else ratings.

(** Lines 73-78: the metadata ids, duplicates dropped. *)
Definition all_item_ids (movies_id : list Z) : list Z := unique movies_id.

(** Lines 81-92: the three filters in sequence. *)
Definition prune (args : Args) (movies_id : list Z) (ratings : list Interaction)
  : list Interaction :=
  let ratings := prune_users args ratings in
  let ratings := prune_items args ratings in
  filter (λ x, movieId x ∈ all_item_ids movies_id) ratings.

(** [{k: i for i, k in enumerate(keys)}], built left to right: a later
    occurrence of a key overwrites an earlier one. *)
Fixpoint enumerate_from (i : Z) (keys : list Z) (d : gmap Z Z) : gmap Z Z :=
  match keys with
  | [] => d
  | k :: keys' => enumerate_from (i + 1) keys' (<[k := i]> d)
  end.

Definition enumerate_dict (keys : list Z) : gmap Z Z := enumerate_from 0 keys ∅.

(** [col.map(d.get).astype(np.int32)].  [d.get] answers [None] for a key
    the dictionary lacks, and pandas infers the type of the mapped column
    from what it holds: integers alone give an integer column, which the
    cast wraps to 32 bits; integers and [None] give a float column with NaN
    for the missing keys, which the integer cast refuses ([ValueError]);
    [None] alone, on a column of at least one row, gives an object column
    of [None], and the cast raises [TypeError]. *)
Definition map_get_int32 (d : gmap Z Z) (col : list Z) : outcome (list Z) :=
  if decide (col ≠ [] ∧ Forall (λ k, d !! k = None) col) then Raise TypeError
  else mapM_out (λ k, match d !! k with
                      | Some i => Ok (int32 i)
                      | None => Raise ValueError
                      end) col.

(** The index check of the [coo_matrix] constructor. *)
Definition index_ok (bound : Z) (idx : list Z) : bool :=
  forallb (λ i, bool_decide (0 ≤ i < bound)) idx.

(** [build_confidence] (lines 22-35). *)
Definition build_confidence (ratings : list Interaction)
    (user2row item2col : gmap Z Z) (alpha : Qc) : outcome coo_matrix :=
  rows ← map_get_int32 user2row (userId <$> ratings);
  cols ← map_get_int32 item2col (movieId <$> ratings);
  let vals := (λ x, 1 + alpha * rating x)%Qc <$> ratings in
  let shape := (Z.of_nat (size user2row), Z.of_nat (size item2col)) in
  if index_ok shape.1 rows && index_ok shape.2 cols
  then Ok (mkCoo shape (zip (zip rows cols) vals))
  else Raise ValueError.

(** [C.tocsr()]: one stored value per coordinate, duplicates summed. *)
Definition tocsr (C : coo_matrix) : gmap (Z * Z) Qc :=
  foldl (λ m e, <[e.1 := (default 0 (m !! e.1) + e.2)%Qc]> m) ∅ (entries C).

(** Reading a cell of a sparse matrix: an absent coordinate is zero. *)
Definition cell (m : gmap (Z * Z) Qc) (r c : Z) : Qc := default 0%Qc (m !! (r, c)).

(** Steps 1-4 of [main] (lines 66-104), up to the matrix handed to ALS. *)
Definition user2row_of (ratings : list Interaction) : gmap Z Z :=
  enumerate_dict (unique (userId <$> ratings)).

Definition item2col_of (movies_id : list Z) : gmap Z Z :=
  enumerate_dict (all_item_ids movies_id).

Definition main (args : Args) (movies_id : list Z) (ratings : list Interaction)
  : outcome (gmap (Z * Z) Qc) :=
  let ratings := prune args movies_id ratings in
  let user2row := user2row_of ratings in
  let item2col := item2col_of movies_id in
  C ← build_confidence ratings user2row item2col (alpha args);
  Ok (tocsr C).

(** ** The mapping artefact (lines 125-130)

    [user2row] and [item2col] are built by [enumerate] over lists without
    repetitions ([unique()], [drop_duplicates]), so [d.items()] yields the
    keys in list order, each with its position. *)
Definition enumerate_items (keys : list Z) : list (Z * Z) :=
  zip keys (Z.of_nat <$> seq 0 (length keys)).

(** [{int(v): int(k) for k, v in d.items()}]. *)
Definition reverse_dict (items : list (Z * Z)) : gmap Z Z :=
  foldl (λ d kv, <[kv.2 := kv.1]> d) ∅ items.

Record Mappings : Type := mkMappings {
  user2row : gmap Z Z;
  item2col : gmap Z Z;
  row2user : gmap Z Z;
  col2item : gmap Z Z;
}.

Definition mappings_of (args : Args) (movies_id : list Z) (ratings : list Interaction)
  : Mappings :=
  let ratings := prune args movies_id ratings in
  let user_ids := unique (userId <$> ratings) in
  let item_ids := all_item_ids movies_id in
  mkMappings (enumerate_dict user_ids) (enumerate_dict item_ids)
             (reverse_dict (enumerate_items user_ids))
             (reverse_dict (enumerate_items item_ids)).

End BuildMF.

(** * [05_build_features.py]: labelled rows and negative sampling *)

Module BuildFeatures.

(** One row of the ratings CSV. *)
Record Rating : Type := mkRating {
  userId    : Z;
  movieId   : Z;
  rating    : Q;
  timestamp : Z;
}.

(** One row of [movies_processed.csv], indexed by [id]: the columns
    [make_row] reads. *)
Record Meta : Type := mkMeta {
  runtime_z    : Q;
  lang_idx     : Z;
  popularity   : Q;
  vote_average : Q;
  vote_count   : Q;
}.

(** The dictionary [make_row] builds. *)
Record Row : Type := mkRow {
  row_userId  : Z;
  row_movieId : Z;
  label       : Z;
  row_runtime_z  : Q;
  row_lang_idx   : Z;
  row_popularity : Q;
  vote_avg    : Q;
  vote_cnt    : Q;
}.

Record Args : Type := mkArgs {
  hard_neg_count : nat;   (* --hard-neg *)
  easy_neg_count : nat;   (* --easy-neg *)
  pos_thresh     : Z;     (* --pos-thresh *)
  seed           : Z;     (* --seed *)
}.

(** ** The seeded generator

    [np.random.default_rng(seed)] is numpy's: it is taken as the stream of
    raw words the seed determines, with a cursor.  Every draw of the script
    is [rng.choice(pop_items, 1)], called without weights [p]: numpy then
    picks an index uniformly in [range(len(pop_items))], here the next raw
    word reduced modulo the length. *)
Record Generator : Type := mkGenerator {
  raw : nat → nat;
  pos : nat;
}.

Definition default_rng (bit_generator : Z → nat → nat) (seed : Z) : Generator :=
  mkGenerator (bit_generator seed) 0.

Definition choice_index (size : nat) (rng : Generator) : nat :=
  (raw rng (pos rng) mod size)%nat.

Definition advance (rng : Generator) : Generator :=
  mkGenerator (raw rng) (S (pos rng)).

(** [int(rng.choice(pop_items, 1)[0])]; only called on a non-empty pool. *)
Definition choice (pop_items : list Z) (rng : Generator) : Z * Generator :=
  (nth (choice_index (length pop_items) rng) pop_items 0, advance rng).

(** ** [sample_easy_neg] (lines 34-48)

    The [while] loop has no bound of its own: [fuel] counts its iterations,
    and [None] says the loop is still running when the fuel is spent.  The
    set [seen] is mutated in place, so the result carries it. *)
Fixpoint sample_loop (fuel : nat) (pop_items : list Z) (n : nat)
    (seen : gset Z) (out : list Z) (rng : Generator)
  : option (list Z * gset Z * Generator) :=
  if decide (length out < n)%nat then
    match fuel with
    | O => None
    | S fuel' =>
        let '(item, rng') := choice pop_items rng in
        if decide (item ∈ seen)
        then sample_loop fuel' pop_items n seen out rng'
        else sample_loop fuel' pop_items n ({[item]} ∪ seen) (out ++ [item]) rng'
    end
  else Some (out, seen, rng).

Definition sample_easy_neg (fuel : nat) (seen : gset Z) (pop_items : list Z)
    (n : nat) (rng : Generator) : option (list Z * gset Z * Generator) :=
  if decide (n = 0%nat ∨ length pop_items = 0%nat)
  then Some ([], seen, rng)
  else sample_loop fuel pop_items n seen [] rng.

(** ** [make_row] (lines 51-69): four parameters *)
Definition make_row (uid item label : Z) (meta : option Meta) : option Row :=
  match meta with
  | None => None
  | Some m =>
      Some (mkRow uid item label (runtime_z m) (lang_idx m) (popularity m)
                  (vote_average m) (vote_count m))
  end.

(** A positional argument a call site passes beyond the first four. *)
Inductive pyarg : Set :=
| PyInt (z : Z)
| PyNone.

(** A Python call of [make_row]: the first four positional arguments bind
    the four parameters; any further one makes the call raise [TypeError]
    before the body runs. *)
Definition call_make_row (uid item label : Z) (meta : option Meta)
    (extra : list pyarg) : outcome (option Row) :=
  match extra with
  | [] => Ok (make_row uid item label meta)
  | _ :: _ => Raise TypeError
  end.

(** ** [main] (lines 99-167) *)

(** Line 108: the distinct movie ids, most rated first.  pandas promises
    no order among equally rated ids; the model keeps their order of first
    appearance, and nothing proved below reads it. *)
Definition pop_items_of (ratings : list Rating) : list Z :=
  let col := movieId <$> ratings in
  stable_sort (λ a b, bool_decide (count_key b col ≤ count_key a col)%nat) (unique col).

(** Line 116: the group's rows rated at least [pos_thresh], by ascending
    timestamp.  pandas promises no order among rows with equal timestamps;
    the model keeps their frame order, and nothing proved below reads it. *)
Definition pos_items_of (args : Args) (grp : list Rating) : list Rating :=
  stable_sort (λ a b, bool_decide (timestamp a ≤ timestamp b))
    (filter (λ x, Qle_bool (inject_Z (pos_thresh args)) (rating x) = true) grp).

(** Line 120. *)
Definition seen_items_of (grp : list Rating) : gset Z :=
  list_to_set (movieId <$> grp).

(** Lines 123-130: one call of [make_row] per positive that has metadata,
    with the timestamp as a fifth argument. *)
Fixpoint pos_rows_of (movies : gmap Z Meta) (uid : Z) (pos_items : list Rating)
  : outcome (list Row) :=
  match pos_items with
  | [] => Ok []
  | x :: rest =>
      match movies !! movieId x with
      | Some meta =>
          r ← call_make_row uid (movieId x) 1 (Some meta) [PyInt (timestamp x)];
          rs ← pos_rows_of movies uid rest;
          Ok (match r with Some row => row :: rs | None => rs end)
      | None => pos_rows_of movies uid rest
      end
  end.

(** Lines 138-139. *)
Definition hard_neg_of (args : Args) (movies : gmap Z Meta)
    (cand_map : gmap Z (list Z)) (uid : Z) (seen_items : gset Z) : list Z :=
  take (hard_neg_count args)
    (filter (λ i, (i ∉ seen_items) ∧ (i ∈ dom movies)) (default [] (cand_map !! uid))).

(** Lines 142-154: the easy negatives, then the fallback draw.  Both calls
    receive [seen_items.copy()]: what [sample_easy_neg] adds to its set is
    not seen by the caller, and the caller adds nothing to [seen_items]. *)
Definition easy_neg_of (fuel : nat) (args : Args) (movies : gmap Z Meta)
    (pop_items : list Z) (seen_items : gset Z) (hard_neg : list Z)
    (rng : Generator) : option (list Z * Generator) :=
  match sample_easy_neg fuel seen_items pop_items (easy_neg_count args) rng with
  | None => None
  | Some (easy_neg_ids, _, rng) =>
      let easy_neg := filter (λ i, i ∈ dom movies) easy_neg_ids in
      if decide (hard_neg = [] ∧ easy_neg = []) then
        match sample_easy_neg fuel seen_items pop_items 1 rng with
        | None => None
        | Some (fallback, _, rng) =>
            Some (filter (λ i, i ∈ dom movies) fallback, rng)
        end
      else Some (easy_neg, rng)
  end.

(** Lines 157-160: [movies.loc[it]], then [make_row] with [None] as a
    fifth argument; the result is appended as it is. *)
Definition neg_rows_of (movies : gmap Z Meta) (uid : Z) (items : list Z)
  : outcome (list (option Row)) :=
  mapM_out (λ it,
    match movies !! it with
    | Some meta => call_make_row uid it 0 (Some meta) [PyNone]
    | None => Raise KeyError
    end) items.

(** What one iteration of the user loop leaves behind. *)
Inductive step : Type :=
| Skip                                   (* [continue] *)
| Extend (pos_rows : list Row) (neg_rows : list (option Row)).

(** The body of the loop over users (lines 115-167). *)
Definition user_step (fuel : nat) (args : Args) (movies : gmap Z Meta)
    (cand_map : gmap Z (list Z)) (pop_items : list Z)
    (uid : Z) (grp : list Rating) (rng : Generator)
  : option (outcome (step * Generator)) :=
  let pos_items := pos_items_of args grp in
  let seen_items := seen_items_of grp in
  if decide (pos_items = []) then Some (Ok (Skip, rng))
  else
    match pos_rows_of movies uid pos_items with
    | Raise e => Some (Raise e)
    | Ok [] => Some (Ok (Skip, rng))
    | Ok (r :: rs) =>
        let pos_rows := r :: rs in
        let hard_neg := hard_neg_of args movies cand_map uid seen_items in
        match easy_neg_of fuel args movies pop_items seen_items hard_neg rng with
        | None => None
        | Some (easy_neg, rng) =>
            match neg_rows_of movies uid (hard_neg ++ easy_neg) with
            | Raise e => Some (Raise e)
            | Ok [] => Some (Ok (Skip, rng))
            | Ok (r' :: rs') => Some (Ok (Extend pos_rows (r' :: rs'), rng))
            end
        end
    end.

(** The loop over [ratings.groupby("userId")], with the accumulators
    [rows] and [kept_users] and the one generator threaded through. *)
Fixpoint users_loop (fuel : nat) (args : Args) (movies : gmap Z Meta)
    (cand_map : gmap Z (list Z)) (pop_items : list Z)
    (groups : list (Z * list Rating))
    (rows : list (option Row)) (kept_users : nat) (rng : Generator)
  : option (outcome (list (option Row) * nat)) :=
  match groups with
  | [] => Some (Ok (rows, kept_users))
  | (uid, grp) :: groups' =>
      match user_step fuel args movies cand_map pop_items uid grp rng with
      | None => None
      | Some (Raise e) => Some (Raise e)
      | Some (Ok (Skip, rng)) =>
          users_loop fuel args movies cand_map pop_items groups' rows kept_users rng
      | Some (Ok (Extend pos_rows neg_rows, rng)) =>
          users_loop fuel args movies cand_map pop_items groups'
            (rows ++ (Some <$> pos_rows) ++ neg_rows) (S kept_users) rng
      end
  end.

(** [main] up to the frame it writes: the rows and the count of users
    that contributed. *)
Definition main (bit_generator : Z → nat → nat) (fuel : nat) (args : Args)
    (ratings : list Rating) (movies : gmap Z Meta) (cand_map : gmap Z (list Z))
  : option (outcome (list (option Row) * nat)) :=
  let rng := default_rng bit_generator (seed args) in
  let pop_items := pop_items_of ratings in
  users_loop fuel args movies cand_map pop_items (groupby userId ratings) [] 0 rng.

(** ** The loop of [main], for any behaviour of the calls of [make_row]

    Python looks the name [make_row] up when a call runs: lines 114-167
    are the same statements whatever a call of [make_row] does.  Here the
    calls of lines 128 and 160 are a parameter, [call]; at [call_make_row],
    the call of the function the script defines, these definitions are
    [pos_rows_of], [neg_rows_of], [user_step], [users_loop] and [main]
    above (see [main_with_call_make_row]). *)
Section Loop.
Context (call : Z → Z → Z → option Meta → list pyarg → outcome (option Row)).

(** Lines 123-130. *)
Fixpoint pos_rows_with (movies : gmap Z Meta) (uid : Z) (pos_items : list Rating)
  : outcome (list Row) :=
  match pos_items with
  | [] => Ok []
  | x :: rest =>
      match movies !! movieId x with
      | Some meta =>
          r ← call uid (movieId x) 1 (Some meta) [PyInt (timestamp x)];
          rs ← pos_rows_with movies uid rest;
          Ok (match r with Some row => row :: rs | None => rs end)
      | None => pos_rows_with movies uid rest
      end
  end.

(** Lines 157-160. *)
Definition neg_rows_with (movies : gmap Z Meta) (uid : Z) (items : list Z)
  : outcome (list (option Row)) :=
  mapM_out (λ it,
    match movies !! it with
    | Some meta => call uid it 0 (Some meta) [PyNone]
    | None => Raise KeyError
    end) items.

(** Lines 115-167. *)
Definition user_step_with (fuel : nat) (args : Args) (movies : gmap Z Meta)
    (cand_map : gmap Z (list Z)) (pop_items : list Z)
    (uid : Z) (grp : list Rating) (rng : Generator)
  : option (outcome (step * Generator)) :=
  let pos_items := pos_items_of args grp in
  let seen_items := seen_items_of grp in
  if decide (pos_items = []) then Some (Ok (Skip, rng))
  else
    match pos_rows_with movies uid pos_items with
    | Raise e => Some (Raise e)
    | Ok [] => Some (Ok (Skip, rng))
    | Ok (r :: rs) =>
        let pos_rows := r :: rs in
        let hard_neg := hard_neg_of args movies cand_map uid seen_items in
        match easy_neg_of fuel args movies pop_items seen_items hard_neg rng with
        | None => None
        | Some (easy_neg, rng) =>
            match neg_rows_with movies uid (hard_neg ++ easy_neg) with
            | Raise e => Some (Raise e)
            | Ok [] => Some (Ok (Skip, rng))
            | Ok (r' :: rs') => Some (Ok (Extend pos_rows (r' :: rs'), rng))
            end
        end
    end.

(** Lines 114-167, with [rows], [kept_users] and the generator. *)
Fixpoint users_loop_with (fuel : nat) (args : Args) (movies : gmap Z Meta)
    (cand_map : gmap Z (list Z)) (pop_items : list Z)
    (groups : list (Z * list Rating))
    (rows : list (option Row)) (kept_users : nat) (rng : Generator)
  : option (outcome (list (option Row) * nat)) :=
  match groups with
  | [] => Some (Ok (rows, kept_users))
  | (uid, grp) :: groups' =>
      match user_step_with fuel args movies cand_map pop_items uid grp rng with
      | None => None
      | Some (Raise e) => Some (Raise e)
      | Some (Ok (Skip, rng)) =>
          users_loop_with fuel args movies cand_map pop_items groups' rows kept_users rng
      | Some (Ok (Extend pos_rows neg_rows, rng)) =>
          users_loop_with fuel args movies cand_map pop_items groups'
            (rows ++ (Some <$> pos_rows) ++ neg_rows) (S kept_users) rng
      end
  end.

(** Lines 99-170. *)
Definition main_with (bit_generator : Z → nat → nat) (fuel : nat) (args : Args)
    (ratings : list Rating) (movies : gmap Z Meta) (cand_map : gmap Z (list Z))
  : option (outcome (list (option Row) * nat)) :=
  let rng := default_rng bit_generator (seed args) in
  let pop_items := pop_items_of ratings in
  users_loop_with fuel args movies cand_map pop_items (groupby userId ratings) [] 0 rng.

End Loop.

End BuildFeatures.

(** * [06_train_lgbm.py]: MAP@k and NDCG@k *)

Module TrainLgbm.

(** One row of the scored frame [df_pred] (the columns [eval_metrics]
    reads).  A finite float score is a rational; only its order matters. *)
Record PredRow : Type := mkPredRow {
  userId : Z;
  label  : Z;
  pred   : Q;
}.

(** A float result: a real number, or numpy's [nan]. *)
Inductive float : Type :=
| Finite (r : R)
| NaN.

Definition sum_Z (l : list Z) : Z := foldr Z.add 0 l.
Definition sum_R (l : list R) : R := foldr Rplus 0%R l.

(** [y_pred.argsort()]: the row positions by ascending score.  numpy's
    default kind promises no order among rows with equal scores; the model
    leaves them in row order, one of the orders the call may return and
    the one it returns on two rows.  What is proved of the metrics does not
    read the order of ties, and the ranking itself is stated for every
    ascending order ([ascending_argsort]). *)
Definition argsort (y_pred : list Q) : list nat :=
  (stable_sort (λ a b, Qle_bool a.2 b.2) (zip (seq 0 (length y_pred)) y_pred)).*1.

(** Fancy indexing [a[idx]] with in-range positions. *)
Definition take_idx (a : list Z) (idx : list nat) : list Z :=
  (λ i, nth i a 0) <$> idx.

(** [np.cumsum]. *)
Fixpoint cumsum_from (acc : Z) (l : list Z) : list Z :=
  match l with
  | [] => []
  | x :: l' => (acc + x) :: cumsum_from (acc + x) l'
  end.

Definition cumsum (l : list Z) : list Z := cumsum_from 0 l.

(** An elementwise operation on two one-dimensional arrays: equal lengths
    pair up, a length-one array is stretched, anything else does not
    broadcast. *)
Definition broadcast (f : R → R → R) (xs ys : list R) : outcome (list R) :=
  if decide (length xs = length ys) then Ok (zip_with f xs ys)
  else match xs, ys with
       | [x], _ => Ok (f x <$> ys)
       | _, [y] => Ok ((λ x, f x y) <$> xs)
       | _, _ => Raise ValueError
       end.

Definition log2 (x : R) : R := (ln x / ln 2)%R.

(** [_dcg] (lines 67-72): [rels / log2(arange(2, size + 2))], summed. *)
Definition _dcg (rels : list Z) : R :=
  sum_R (imap (λ i r, IZR r / log2 (INR (i + 2)))%R rels).

(** [np.arange(k) + 1]. *)
Definition arange1 (k : nat) : list R := (λ i, INR i + 1)%R <$> seq 0 k.

(** Line 93: [y_pred.argsort()[::-1]]. *)
Definition order_of (y_pred : list Q) : list nat := reverse (argsort y_pred).

(** Lines 96-104. *)
Definition map_at_k (k : nat) (y_true hits : list Z) : outcome R :=
  if decide (sum_Z hits = 0) then Ok 0%R
  else
    let cs := cumsum hits in
    precision_at_i ← broadcast Rdiv (IZR <$> cs) (arange1 k);
    weighted ← broadcast Rmult precision_at_i (IZR <$> hits);
    Ok (sum_R weighted / IZR (Z.min (sum_Z y_true) (Z.of_nat k)))%R.

(** Lines 106-110. *)
Definition ndcg_at_k (k : nat) (y_true hits : list Z) : R :=
  let dcg := _dcg hits in
  let ideal_topk := take k (reverse (stable_sort Z.leb y_true)) in
  let idcg := _dcg ideal_topk in
  if Rlt_dec 0 idcg then (dcg / idcg)%R else 0%R.

(** The body of the loop over groups (lines 84-110): the pair appended to
    [map_scores] and [ndcg_scores]. *)
Definition group_metrics (k : nat) (g : list PredRow) : outcome (R * R) :=
  let y_true := (λ x, int8 (label x)) <$> g in
  let y_pred := pred <$> g in
  if decide (sum_Z y_true = 0) then Ok (0%R, 0%R)
  else
    let order := order_of y_pred in
    let topk := take k order in
    let hits := take_idx y_true topk in
    ap ← map_at_k k y_true hits;
    Ok (ap, ndcg_at_k k y_true hits).

(** [np.mean] of a Python list of floats. *)
Definition np_mean (l : list R) : float :=
  match l with
  | [] => NaN
  | _ :: _ => Finite (sum_R l / INR (length l))
  end.

(** [eval_metrics] (lines 75-112), for a cut-off [k ≥ 0]. *)
Definition eval_metrics (df_pred : list PredRow) (k : nat) : outcome (float * float) :=
  scores ← mapM_out (λ ug, group_metrics k ug.2) (groupby userId df_pred);
  Ok (np_mean (scores.*1), np_mean (scores.*2)).

(** ** [load_split] (lines 18-38)

    The frame is any list of rows with a [userId] and a [label] column
    (read here through [uid] and [lab]); the labels are taken to be
    present in every row, so that [count] is the number of rows.  The
    check on line 37 either passes or raises [AssertionError]. *)
Inductive checked (B : Type) : Type :=
| Passed (b : B)
| AssertionError.
Arguments Passed {B} b.
Arguments AssertionError {B}.

Section LoadSplit.
Context {A : Type} (uid : A → Z) (lab : A → Z).

(** Line 26: the columns [sum] and [count] of [stats], at user [u]. *)
Definition label_sum (df : list A) (u : Z) : Z :=
  sum_Z (lab <$> filter (λ x, uid x = u) df).

Definition label_count (df : list A) (u : Z) : Z :=
  Z.of_nat (length (filter (λ x, uid x = u) df)).

(** Line 27: the users with [0 < sum < count]. *)
Definition ok_users (df : list A) : gset Z :=
  list_to_set (filter (λ u, 0 < label_sum df u ∧ label_sum df u < label_count df u)
                 (unique (uid <$> df))).

(** Lines 31-36: [groupby("userId", sort=False).size().astype("int32")]:
    one size per user, in order of first appearance. *)
Definition group_sizes (df : list A) : list Z :=
  (λ u, int32 (label_count df u)) <$> unique (uid <$> df).

Definition load_split (df : list A) : checked (list A * list Z) :=
  let df := filter (λ x, uid x ∈ ok_users df) df in
  let grp_sizes := group_sizes df in
  if decide (sum_Z grp_sizes = Z.of_nat (length df))
  then Passed (df, grp_sizes) else AssertionError.

End LoadSplit.

(** ** [main], lines 176-180

    The predictions of the trained model, one per row and a function of
    the row ([predict]), are stored in the column [pred] of the validation
    frame, which [eval_metrics] then scores. *)
Definition evaluate {A : Type} (uid lab : A → Z) (predict : A → Q)
    (valid_df : list A) (k : nat) : outcome (float * float) :=
  eval_metrics ((λ x, mkPredRow (uid x) (lab x) (predict x)) <$> valid_df) k.

End TrainLgbm.

(** * Specification vocabulary and sample inputs *)

Module MFSpec.
Import BuildMF.

(** Raw interaction counts. *)
Definition user_count (ratings : list Interaction) (u : Z) : nat :=
  count_key u (userId <$> ratings).

Definition item_count (ratings : list Interaction) (i : Z) : nat :=
  count_key i (movieId <$> ratings).

(** Pruning as the specification words it: both counts over the raw frame. *)
Definition dropped_by_raw_counts (args : Args) (raw : list Interaction)
    (x : Interaction) : Prop :=
  Z.of_nat (user_count raw (userId x)) < min_user_cnt args ∨
  Z.of_nat (item_count raw (movieId x)) < min_item_cnt args.

(** Pruning as [main] does it: the user count over the raw frame, the item
    count over what the user filter left, then the metadata filter. *)
Definition survives (args : Args) (movies_id : list Z) (raw : list Interaction)
    (x : Interaction) : Prop :=
  (min_user_cnt args ≤ Z.of_nat (user_count raw (userId x)) ∧
   min_item_cnt args ≤ Z.of_nat (item_count (prune_users args raw) (movieId x))) ∧
  movieId x ∈ movies_id.

#[global] Instance survives_dec args movies_id raw x :
  Decision (survives args movies_id raw x).
Proof. unfold survives. apply _. Defined.

(** The interaction [x] is mapped to the coordinate [(r, c)]. *)
Definition lands_on (user2row item2col : gmap Z Z) (r c : Z) (x : Interaction) : Prop :=
  user2row !! userId x = Some r ∧ item2col !! movieId x = Some c.

#[global] Instance lands_on_dec u2r i2c r c x : Decision (lands_on u2r i2c r c x).
Proof. unfold lands_on. apply _. Defined.

Definition confidence (args : Args) (x : Interaction) : Qc :=
  (1 + alpha args * rating x)%Qc.

Definition sum_Qc (l : list Qc) : Qc := foldr Qcplus 0%Qc l.

(** The dense index a dictionary gives a key it holds. *)
Definition dense (d : gmap Z Z) (k : Z) : Z := default 0 (d !! k).

(** One step of the conversion to CSR: add a triplet to its coordinate. *)
Definition accumulate (m : gmap (Z * Z) Qc) (e : Z * Z * Qc) : gmap (Z * Z) Qc :=
  <[e.1 := (default 0 (m !! e.1) + e.2)%Qc]> m.

(** Sample run: thresholds 2 and 2, three users, two movies. *)
Definition args22 : Args := mkArgs (Q2Qc 40) 2 2.

Definition raw3 : list Interaction :=
  [ mkInteraction 1 10 (Q2Qc 5);
    mkInteraction 2 10 (Q2Qc 4);
    mkInteraction 2 20 (Q2Qc 3) ].

(** Sample run with a repeated (user, movie) pair and no pruning. *)
Definition args00 : Args := mkArgs (Q2Qc 40) 0 0.

Definition raw_dup : list Interaction :=
  [ mkInteraction 7 10 (Q2Qc 5);
    mkInteraction 7 10 (Q2Qc 3);
    mkInteraction 8 20 (Q2Qc 4) ].

End MFSpec.

Module FeatureSpec.
Import BuildFeatures.

(** The items the next [d] calls of [rng.choice(pop_items, 1)] return. *)
Fixpoint draws (pop_items : list Z) (rng : Generator) (d : nat) : list Z :=
  match d with
  | O => []
  | S d' => (choice pop_items rng).1 :: draws pop_items (advance rng) d'
  end.

(** How many of the [len(pop_items)] equally likely positions of the pool
    hold [x]: the weight of [x] in one draw is this number over the length
    of the pool. *)
Definition choice_outcomes (pop_items : list Z) (x : Z) : nat :=
  count_key x pop_items.

(** Raw popularity: the number of ratings of a movie. *)
Definition popularity_of (ratings : list Rating) (x : Z) : nat :=
  count_key x (movieId <$> ratings).

(** A row is a positive of its user. *)
Definition is_positive (args : Args) (x : Rating) : Prop :=
  Qle_bool (inject_Z (pos_thresh args)) (rating x) = true.

(** A row for which line 128 calls [make_row]: a positive whose movie
    has metadata. *)
Definition rowable (args : Args) (movies : gmap Z Meta) (x : Rating) : Prop :=
  is_positive args x ∧ movieId x ∈ dom movies.

#[global] Instance rowable_dec args movies x : Decision (rowable args movies x).
Proof. unfold rowable, is_positive. apply _. Defined.

(** Generators used in the sample runs: the raw stream 0, 1, 2, ... and
    the constant stream. *)
Definition counting_rng : Generator := mkGenerator (λ i, i) 0.
Definition zero_rng : Generator := mkGenerator (λ _, 0%nat) 0.
Definition counting_bits : Z → nat → nat := λ seed i, (Z.to_nat seed + i)%nat.

Definition meta0 : Meta := mkMeta 0 1 (5 # 2) (7 # 1) 120.

(** Movie 10 rated three times, movie 20 once. *)
Definition ratings_3_1 : list Rating :=
  [ mkRating 1 10 5 100; mkRating 2 10 4 101; mkRating 3 10 2 102;
    mkRating 3 20 1 103 ].

(** Movie 10 rated twice, movie 20 once. *)
Definition ratings_2_1 : list Rating :=
  [ mkRating 1 10 5 100; mkRating 2 10 4 101; mkRating 3 20 1 103 ].

(** One user, one five-star rating of a movie that has metadata. *)
Definition args_default : Args := mkArgs 20 10 4 42.
Definition one_rating : list Rating := [ mkRating 1 10 5 100 ].
Definition one_movie : gmap Z Meta := {[ 10 := meta0 ]}.

(** User 1 rated movie 5; users 2 and 3 rated movie 7, which is also the
    only candidate of user 1: the popularity pool is [7; 5]. *)
Definition args_1_1 : Args := mkArgs 1 1 4 42.
Definition ratings_7_5 : list Rating :=
  [ mkRating 1 5 5 100; mkRating 2 7 3 101; mkRating 3 7 4 102 ].
Definition movies_7 : gmap Z Meta := {[ 7 := meta0 ]}.
Definition cands_7 : gmap Z (list Z) := {[ 1 := [7] ]}.
Definition grp_5 : list Rating := filter (λ x, userId x = 1) ratings_7_5.

(** A call of [make_row] that binds the four parameters and lets a further
    argument pass: what lines 128 and 160 get from a [make_row] that
    accepts their fifth argument. *)
Definition lenient_call (uid item label : Z) (meta : option Meta)
    (extra : list pyarg) : outcome (option Row) :=
  Ok (make_row uid item label meta).

(** The row [r] is the row of user [uid] for movie [item], with label
    [lab]. *)
Definition made_for (uid lab item : Z) (r : Row) : Prop :=
  row_userId r = uid ∧ row_movieId r = item ∧ BuildFeatures.label r = lab.

(** A call that returns a row returns the row it was asked for. *)
Definition rows_as_asked
    (call : Z → Z → Z → option Meta → list pyarg → outcome (option Row)) : Prop :=
  ∀ uid item lab meta extra r,
    call uid item lab meta extra = Ok (Some r) → made_for uid lab item r.









(** Five users and four movies rated four, three, two times and once, so
    that the popularity pool is [1; 2; 3; 4]; users 1 and 2 have
    positives, user 1 two of them, the later one first in the frame; the
    candidates of user 1 are [1; 3; 2]. *)
Definition args_turns : Args := mkArgs 1 1 4 43.
Definition ratings_turns : list Rating :=
  [ mkRating 1 1 5 20; mkRating 1 4 5 10; mkRating 2 2 5 11;
    mkRating 3 1 3 12; mkRating 3 2 3 13; mkRating 3 3 3 14;
    mkRating 4 1 3 15; mkRating 4 2 3 16; mkRating 4 3 3 17;
    mkRating 5 1 3 18 ].
Definition movies_turns : gmap Z Meta :=
  list_to_map ((λ i, (i, meta0)) <$> [1; 2; 3; 4]).
Definition cands_turns : gmap Z (list Z) := {[ 1 := [1; 3; 2] ]}.

(** The row [make_row] builds from [meta0]. *)
Definition default_row (uid item lab : Z) : Row :=
  mkRow uid item lab (runtime_z meta0) (lang_idx meta0) (popularity meta0)
        (vote_average meta0) (vote_count meta0).
Definition row0 (uid item lab : Z) : option Row := Some (default_row uid item lab).


End FeatureSpec.

Module LgbmSpec.
Import TrainLgbm.

(** The predicted score of the row at position [i] of a group. *)
Definition score (y_pred : list Q) (i : nat) : Q := nth i y_pred 0%Q.




(** The order of [order_of] in the model: higher score first and, rows
    with equal scores being left in row order by the model's [argsort],
    the later row first among them. *)
Definition ranks_before (y_pred : list Q) (i j : nat) : Prop :=
  (score y_pred j < score y_pred i)%Q ∨
  ((score y_pred i == score y_pred j)%Q ∧ (j < i)%nat).

(** Ascending order of (position, score) pairs, equal scores by position. *)
Definition lex_lt (a b : nat * Q) : Prop :=
  (a.2 < b.2)%Q ∨ ((a.2 == b.2)%Q ∧ (a.1 < b.1)%nat).

(** The comparison [argsort] sorts by. *)
Definition score_le (a b : nat * Q) : bool := Qle_bool a.2 b.2.

(** The labels of a group of [n] rows whose only positive is row [p]. *)
Definition one_hot (n p : nat) : list Z := <[p := 1]> (replicate n 0).

(** The scenario group of the specification: three rows, one positive,
    which has the highest score. *)
Definition group3 : list PredRow :=
  [ mkPredRow 1 1 (9 # 10); mkPredRow 1 0 (5 # 10); mkPredRow 1 0 (1 # 10) ].

(** A group of one positive row. *)
Definition group1 : list PredRow := [ mkPredRow 1 1 (9 # 10) ].


(** A list of labels that are all 0 or 1. *)
Definition binary (l : list Z) : Prop := ∀ x, x ∈ l → x = 0 ∨ x = 1.

(** The discount [_dcg] divides the relevance at rank [i] (from 0) by. *)
Definition disc (i : nat) : R := log2 (INR (i + 2)).

(** [_dcg] with the ranks counted from [s]. *)
Definition dcg_from (s : nat) (rels : list Z) : R :=
  sum_R (imap (λ i r, IZR r / disc (s + i))%R rels).

(** A column of user ids in which no user comes back after another user's
    row. *)
Fixpoint contiguous (users : list Z) : Prop :=
  match users with
  | [] => True
  | u :: rest => contiguous rest ∧ (∀ v, head rest = Some v → v ≠ u → u ∉ rest)
  end.

(** The rows of each user, the users in order of first appearance. *)
Definition blocks {A} (uid : A → Z) (df : list A) : list (list A) :=
  (λ u, filter (λ x, uid x = u) df) <$> unique (uid <$> df).

Section SplitVocabulary.
Context {A : Type} (uid lab : A → Z).

(** The test of line 27: the labels of user [u] are neither without a
    positive nor all positive. *)
Definition mixed (df : list A) (u : Z) : Prop :=
  0 < label_sum uid lab df u ∧ label_sum uid lab df u < label_count uid df u.

#[global] Instance mixed_dec df u : Decision (mixed df u).
Proof. unfold mixed. apply _. Defined.

End SplitVocabulary.

(** A frame of three users, contiguous by user: user 1 has a positive and
    a negative, user 2 only positives, user 3 one positive among three. *)
Definition split_frame : list PredRow :=
  [ mkPredRow 1 1 0; mkPredRow 1 0 0;
    mkPredRow 2 1 0; mkPredRow 2 1 0;
    mkPredRow 3 0 0; mkPredRow 3 1 0; mkPredRow 3 0 0 ].

(** What [load_split] keeps of it. *)
Definition split_kept : list PredRow :=
  [ mkPredRow 1 1 0; mkPredRow 1 0 0;
    mkPredRow 3 0 0; mkPredRow 3 1 0; mkPredRow 3 0 0 ].

End LgbmSpec.

(** * Facts about the shared helpers *)


Lemma elem_of_unique x l : x ∈ unique l ↔ x ∈ l.
Proof.
  induction l as [|y l IH]; simpl; [done|].
  rewrite !elem_of_cons, list_elem_of_filter, IH.
  destruct (decide (x = y)); naive_solver.
Qed.

Lemma NoDup_unique l : NoDup (unique l).
Proof.
  induction l as [|y l IH]; simpl; [constructor|].
  constructor.
  - rewrite list_elem_of_filter. naive_solver.
  - by apply NoDup_filter.
Qed.

Lemma value_counts_lookup col x :
  value_counts col !! x =
    if decide (count_key x col = 0%nat) then None else Some (count_key x col).
Proof.
  unfold value_counts, count_key.
  induction col as [|y col IH]; simpl; [done|].
  rewrite filter_cons. destruct (decide (y = x)) as [->|Hne].
  - rewrite lookup_insert_eq, IH. simpl.
    destruct (decide (length (filter (λ y, y = x) col) = 0%nat)) as [->|]; done.
  - by rewrite lookup_insert_ne.
Qed.

Lemma int32_small z : 0 ≤ z < 2 ^ 31 → int32 z = z.
Proof. intros. unfold int32. rewrite Z.mod_small; lia. Qed.

Lemma int8_small z : -128 ≤ z < 128 → int8 z = z.
Proof. intros. unfold int8. rewrite Z.mod_small; lia. Qed.

Lemma length_unique l : (length (unique l) ≤ length l)%nat.
Proof.
  induction l as [|y l IH]; simpl; [done|].
  pose proof (length_filter (λ z, z ≠ y) (unique l)). lia.
Qed.

Lemma filter_True_id {A} (P : A → Prop) `{!∀ x, Decision (P x)} (l : list A) :
  (∀ x, x ∈ l → P x) → filter P l = l.
Proof.
  induction l as [|y l IH]; intros Hall; [done|].
  rewrite filter_cons_True by (apply Hall; left).
  f_equal. apply IH. intros x Hx. apply Hall. by right.
Qed.

Lemma count_key_pos x col : x ∈ col → (0 < count_key x col)%nat.
Proof.
  unfold count_key. induction col as [|y col IH]; [by intros ?%elem_of_nil|].
  rewrite elem_of_cons, filter_cons. intros [->|Hin].
  - rewrite decide_True by done. simpl. lia.
  - destruct (decide (y = x)); simpl; [lia|auto].
Qed.

(** * Facts about sorting and grouping *)

Section SortFacts.
Context {A : Type} (le : A → A → bool).

Lemma insert_sorted_Permutation x l : insert_sorted le x l ≡ₚ x :: l.
Proof.
  induction l as [|y l IH]; simpl; [done|].
  destruct (le x y); [done|]. rewrite IH. apply Permutation_swap.
Qed.

Lemma stable_sort_Permutation l : stable_sort le l ≡ₚ l.
Proof.
  induction l as [|x l IH]; simpl; [done|].
  by rewrite insert_sorted_Permutation, IH.
Qed.

Lemma elem_of_stable_sort x l : x ∈ stable_sort le l ↔ x ∈ l.
Proof. by rewrite stable_sort_Permutation. Qed.

Lemma length_stable_sort l : length (stable_sort le l) = length l.
Proof. by rewrite stable_sort_Permutation. Qed.

Lemma stable_sort_eq_nil l : stable_sort le l = [] ↔ l = [].
Proof.
  split; [|by intros ->].
  intros H. apply Permutation_nil_r. by rewrite <- H, stable_sort_Permutation.
Qed.

End SortFacts.

Lemma elem_of_groupby {A} (key : A → Z) (df : list A) u g :
  (u, g) ∈ groupby key df ↔ u ∈ key <$> df ∧ g = filter (λ x, key x = u) df.
Proof.
  unfold groupby. rewrite list_elem_of_fmap. split.
  - intros (u' & [= -> ->] & Hu). by rewrite elem_of_stable_sort, elem_of_unique in Hu.
  - intros [Hu ->]. exists u. by rewrite elem_of_stable_sort, elem_of_unique.
Qed.

Lemma groupby_covers {A} (key : A → Z) (df : list A) x :
  x ∈ df → ∃ g, (key x, g) ∈ groupby key df ∧ x ∈ g.
Proof.
  intros Hx. exists (filter (λ y, key y = key x) df). split.
  - apply elem_of_groupby. split; [|done]. apply list_elem_of_fmap. eauto.
  - by apply list_elem_of_filter.
Qed.

Lemma count_key_notin x l : x ∉ l → count_key x l = 0%nat.
Proof.
  unfold count_key. induction l as [|y l IH]; [done|].
  intros [Hne Hnin]%not_elem_of_cons. rewrite filter_cons.
  rewrite decide_False by done. auto.
Qed.

Lemma count_key_NoDup x l : NoDup l → x ∈ l → count_key x l = 1%nat.
Proof.
  induction 1 as [|y l Hy Hnd IH]; [by intros ?%elem_of_nil|].
  unfold count_key in *. rewrite filter_cons. intros [->|Hin]%elem_of_cons.
  - rewrite decide_True by done. simpl. f_equal. by apply count_key_notin.
  - rewrite decide_False by (intros ->; done). auto.
Qed.

Lemma StronglySorted_weaken {A} (R R' : A → A → Prop) l :
  (∀ a b, R a b → R' a b) → StronglySorted R l → StronglySorted R' l.
Proof.
  intros HR. induction 1 as [|x l Hs IH Hx]; constructor; [done|].
  eapply Forall_impl; [done|]. intros y. apply HR.
Qed.

Section SortedFacts.
Context {A : Type} (le : A → A → bool).
Hypothesis le_total : ∀ x y, le x y = true ∨ le y x = true.
Hypothesis le_trans : ∀ x y z, le x y = true → le y z = true → le x z = true.

Lemma insert_sorted_StronglySorted x l :
  StronglySorted (λ a b, le a b = true) l →
  StronglySorted (λ a b, le a b = true) (insert_sorted le x l).
Proof.
  induction 1 as [|y l Hs IH Hy]; simpl; [repeat constructor|].
  destruct (le x y) eqn:Hxy.
  - constructor; [by constructor|]. constructor; [done|].
    rewrite Forall_forall in Hy |- *. intros z Hz. by apply (le_trans x y z), Hy.
  - constructor; [done|]. rewrite insert_sorted_Permutation.
    constructor; [|done]. destruct (le_total x y); congruence.
Qed.

Lemma stable_sort_StronglySorted l :
  StronglySorted (λ a b, le a b = true) (stable_sort le l).
Proof.
  induction l as [|x l IH]; simpl; [constructor|].
  by apply insert_sorted_StronglySorted.
Qed.

End SortedFacts.

Lemma filter_unique (P : Z → Prop) `{!∀ x, Decision (P x)} l :
  filter P (unique l) = unique (filter P l).
Proof.
  induction l as [|x l IH]; [done|]. cbn [unique]. rewrite !filter_cons.
  destruct (decide (P x)) as [HP|HP]; cbn [unique].
  - f_equal. rewrite <- IH, !list_filter_filter. apply list_filter_iff. tauto.
  - rewrite list_filter_filter, <- IH. apply list_filter_iff.
    intros y. split; [tauto|]. intros Hy. split; [done|]. by intros ->.
Qed.

(** * Properties of [01_build_mf.py] *)

Module MFFacts.
Import BuildMF MFSpec.

Lemma elem_of_keep_set col n u :
  u ∈ keep_set (value_counts col) n ↔
  count_key u col ≠ 0%nat ∧ n ≤ Z.of_nat (count_key u col).
Proof.
  unfold keep_set. rewrite elem_of_dom. unfold is_Some.
  setoid_rewrite map_lookup_filter_Some. setoid_rewrite value_counts_lookup.
  simpl. destruct (decide (count_key u col = 0%nat)) as [E|E]; split.
  - intros (? & ? & ?). done.
  - intros [? ?]. done.
  - intros (c & [= <-] & ?). done.
  - intros [_ ?]. eauto.
Qed.

Lemma prune_users_filter args raw :
  prune_users args raw =
  filter (λ x, min_user_cnt args ≤ Z.of_nat (user_count raw (userId x))) raw.
Proof.
  unfold prune_users, user_count. case_decide as Hpos.
  - apply list_filter_iff. intros x. rewrite elem_of_keep_set.
    split; [tauto|]. intros H. split; [lia|done].
  - symmetry. apply filter_True_id. intros; lia.
Qed.

Lemma prune_items_filter args l :
  prune_items args l =
  filter (λ x, min_item_cnt args ≤ Z.of_nat (item_count l (movieId x))) l.
Proof.
  unfold prune_items, item_count. case_decide as Hpos.
  - apply list_filter_iff. intros x. rewrite elem_of_keep_set.
    split; [tauto|]. intros H. split; [lia|done].
  - symmetry. apply filter_True_id. intros; lia.
Qed.

(** C8, as the code has it: one pass of three filters.  An interaction
    stays exactly when its user has at least [min_user_cnt] raw
    interactions, its movie has at least [min_item_cnt] interactions among
    those the user filter left, and its movie is in the metadata; the frame
    keeps its row order.  Nothing is recounted afterwards. *)
Theorem prune_is_one_pass_filter args movies_id raw :
  prune args movies_id raw = filter (survives args movies_id raw) raw.
Proof.
  unfold prune. rewrite prune_items_filter, prune_users_filter.
  rewrite !list_filter_filter. apply list_filter_iff. intros x.
  unfold survives, all_item_ids. rewrite elem_of_unique.
  rewrite <- prune_users_filter. tauto.
Qed.

(** C8, as stated, fails: user 1 is pruned, which leaves movie 10 with one
    interaction, so (2, 10) is dropped although user 2 and movie 10 each
    have two raw interactions. *)
Lemma prune_not_by_raw_counts :
  ¬ (∀ x, x ∈ raw3 →
       (x ∉ prune args22 [10; 20] raw3 ↔ dropped_by_raw_counts args22 raw3 x)).
Proof.
  intros H. specialize (H (mkInteraction 2 10 (Q2Qc 4))).
  destruct H as [H _]; [set_solver|].
  assert (Hp : prune args22 [10; 20] raw3 = []) by (vm_compute; reflexivity).
  rewrite Hp in H. destruct H as [H|H]; [apply not_elem_of_nil| |];
    vm_compute in H; discriminate H.
Qed.

(** *** Dense index maps *)

Lemma enumerate_from_lookup_notin i keys d k :
  k ∉ keys → enumerate_from i keys d !! k = d !! k.
Proof.
  revert i d. induction keys as [|k' keys IH]; intros i d Hk; simpl; [done|].
  apply not_elem_of_cons in Hk as [Hne Hk].
  rewrite IH by done. by rewrite lookup_insert_ne.
Qed.

Lemma enumerate_from_lookup_in i keys d k :
  k ∈ keys →
  ∃ j, enumerate_from i keys d !! k = Some j ∧ i ≤ j < i + Z.of_nat (length keys).
Proof.
  revert i d. induction keys as [|k' keys IH]; intros i d Hin.
  { by apply elem_of_nil in Hin. }
  simpl. destruct (decide (k ∈ keys)) as [Hk|Hk].
  - destruct (IH (i + 1) (<[k' := i]> d) Hk) as (j & -> & ?).
    exists j. split; [done|lia].
  - apply elem_of_cons in Hin as [->|?]; [|done].
    exists i. split; [|lia].
    rewrite enumerate_from_lookup_notin by done. apply lookup_insert_eq.
Qed.

Lemma enumerate_from_dom i keys d :
  dom (enumerate_from i keys d) = list_to_set keys ∪ dom d.
Proof.
  revert i d. induction keys as [|k keys IH]; intros i d; simpl.
  - set_solver.
  - rewrite IH, dom_insert_L. set_solver.
Qed.

Lemma enumerate_dict_size keys :
  NoDup keys → size (enumerate_dict keys) = length keys.
Proof.
  intros Hnd. unfold enumerate_dict.
  rewrite <- size_dom, enumerate_from_dom, dom_empty_L, (right_id_L ∅ (∪)).
  by apply size_list_to_set.
Qed.

Lemma enumerate_dict_lookup keys k :
  k ∈ keys →
  ∃ j, enumerate_dict keys !! k = Some j ∧ 0 ≤ j < Z.of_nat (length keys).
Proof.
  intros Hin. destruct (enumerate_from_lookup_in 0 keys ∅ k Hin) as (j & ? & ?).
  exists j. split; [done|lia].
Qed.

(** *** The casts and the constructor's index check *)

Lemma map_get_int32_ok d bound col :
  bound ≤ 2 ^ 31 →
  (∀ k, k ∈ col → ∃ j, d !! k = Some j ∧ 0 ≤ j < bound) →
  map_get_int32 d col = Ok (dense d <$> col) ∧
  index_ok bound (dense d <$> col) = true.
Proof.
  intros Hb Hall. unfold map_get_int32.
  rewrite decide_False.
  2:{ intros [Hne HF]. destruct col as [|k col]; [done|].
      apply Forall_cons in HF as [Hk _].
      destruct (Hall k) as (j & Hj & _); [by left|]. congruence. }
  induction col as [|k col IH]; simpl; [done|].
  destruct (Hall k) as (j & Hj & Hr); [by left|].
  destruct IH as [IH1 IH2]; [intros k' ?; apply Hall; by right|].
  rewrite Hj. simpl. rewrite IH1. simpl.
  assert (Hd : dense d k = j) by (unfold dense; by rewrite Hj).
  rewrite Hd, int32_small by lia. split; [done|].
  unfold index_ok in *. simpl. apply andb_true_intro.
  split; [apply bool_decide_eq_true; lia | exact IH2].
Qed.

(** *** Summing the triplets *)

Lemma foldl_accumulate_cell es m r c :
  cell (foldl accumulate m es) r c =
  (cell m r c + sum_Qc (snd <$> filter (λ e, e.1 = (r, c)) es))%Qc.
Proof.
  revert m. induction es as [|[rc v] es IH]; intros m; simpl.
  - unfold sum_Qc. simpl. ring.
  - rewrite IH. rewrite filter_cons. simpl.
    unfold cell, accumulate. simpl.
    destruct (decide (rc = (r, c))) as [->|Hne].
    + rewrite lookup_insert_eq. simpl. unfold sum_Qc. simpl.
      symmetry. apply Qcplus_assoc.
    + by rewrite lookup_insert_ne.
Qed.

Lemma foldl_accumulate_absent es m rc :
  m !! rc = None → (∀ e, e ∈ es → e.1 ≠ rc) → foldl accumulate m es !! rc = None.
Proof.
  revert m. induction es as [|e es IH]; intros m Hm Hes; simpl; [done|].
  apply IH.
  - unfold accumulate. rewrite lookup_insert_ne; [done|]. apply Hes. by left.
  - intros e' ?. apply Hes. by right.
Qed.

Lemma zip_fmap3 {A} (f g : A → Z) (h : A → Qc) (l : list A) :
  zip (zip (f <$> l) (g <$> l)) (h <$> l) = (λ x, (f x, g x, h x)) <$> l.
Proof. induction l as [|x l IH]; [done|]. rewrite !fmap_cons. simpl. by f_equal. Qed.

Lemma sum_landing u2r i2c args r c (l : list Interaction) :
  (∀ x, x ∈ l → is_Some (u2r !! userId x) ∧ is_Some (i2c !! movieId x)) →
  snd <$> filter (λ e : Z * Z * Qc, e.1 = (r, c))
            ((λ x, (dense u2r (userId x), dense i2c (movieId x), confidence args x)) <$> l)
  = confidence args <$> filter (lands_on u2r i2c r c) l.
Proof.
  induction l as [|x l IH]; intros Hall; [done|].
  destruct (Hall x) as [[i Hi] [j Hj]]; [by left|].
  assert (IH' := IH (λ x' Hx', Hall x' (list_elem_of_further _ _ _ Hx'))).
  rewrite fmap_cons, (filter_cons (lands_on u2r i2c r c)), filter_cons.
  assert (Hiff : lands_on u2r i2c r c x ↔
                 (dense u2r (userId x), dense i2c (movieId x), confidence args x).1 = (r, c)).
  { unfold lands_on, dense. rewrite Hi, Hj. simpl. split.
    - by intros [[= ->] [= ->]].
    - by intros [= -> ->]. }
  destruct (decide (lands_on u2r i2c r c x)) as [Hl|Hl].
  - rewrite decide_True by (by apply Hiff). rewrite !fmap_cons. by f_equal.
  - rewrite decide_False by (by rewrite <- Hiff). done.
Qed.

Lemma length_prune args movies_id raw :
  (length (prune args movies_id raw) ≤ length raw)%nat.
Proof.
  unfold prune. rewrite prune_items_filter, prune_users_filter.
  etrans; [apply length_filter|]. etrans; [apply length_filter|].
  apply length_filter.
Qed.

Lemma kept_movie_in_metadata args movies_id raw x :
  x ∈ prune args movies_id raw → movieId x ∈ all_item_ids movies_id.
Proof. unfold prune. rewrite list_elem_of_filter. tauto. Qed.

Lemma build_confidence_ok args movies_id (kept : list Interaction) :
  Z.of_nat (length kept) ≤ 2 ^ 31 →
  Z.of_nat (length movies_id) ≤ 2 ^ 31 →
  (∀ x, x ∈ kept → movieId x ∈ all_item_ids movies_id) →
  let u2r := user2row_of kept in
  let i2c := item2col_of movies_id in
  (∀ x, x ∈ kept → is_Some (u2r !! userId x) ∧ is_Some (i2c !! movieId x)) ∧
  build_confidence kept u2r i2c (alpha args) =
    Ok (mkCoo (Z.of_nat (size u2r), Z.of_nat (size i2c))
          ((λ x, (dense u2r (userId x), dense i2c (movieId x), confidence args x))
             <$> kept)).
Proof.
  intros Hk Hm Hmeta u2r i2c.
  assert (Hsu : size u2r = length (unique (userId <$> kept)))
    by apply enumerate_dict_size, NoDup_unique.
  assert (Hsi : size i2c = length (all_item_ids movies_id))
    by apply enumerate_dict_size, NoDup_unique.
  assert (Hu : ∀ k, k ∈ userId <$> kept →
               ∃ j, u2r !! k = Some j ∧ 0 ≤ j < Z.of_nat (size u2r)).
  { intros k Hin. rewrite Hsu. apply enumerate_dict_lookup. by apply elem_of_unique. }
  assert (Hi : ∀ k, k ∈ movieId <$> kept →
               ∃ j, i2c !! k = Some j ∧ 0 ≤ j < Z.of_nat (size i2c)).
  { intros k (x & -> & Hx)%list_elem_of_fmap. rewrite Hsi.
    apply enumerate_dict_lookup. by apply Hmeta. }
  split.
  { intros x Hx. split.
    - destruct (Hu (userId x)) as (j & -> & _); [|done].
      apply list_elem_of_fmap. eauto.
    - destruct (Hi (movieId x)) as (j & -> & _); [|done].
      apply list_elem_of_fmap. eauto. }
  pose proof (length_unique (userId <$> kept)) as Hlu.
  pose proof (length_unique movies_id) as Hli.
  rewrite length_fmap in Hlu. unfold all_item_ids in Hsi.
  destruct (map_get_int32_ok u2r (Z.of_nat (size u2r)) (userId <$> kept))
    as [Hr1 Hr2]; [lia|done|].
  destruct (map_get_int32_ok i2c (Z.of_nat (size i2c)) (movieId <$> kept))
    as [Hc1 Hc2]; [lia|done|].
  unfold build_confidence. rewrite Hr1. simpl. rewrite Hc1. simpl.
  rewrite Hr2, Hc2. simpl. do 2 f_equal.
  rewrite <- !list_fmap_compose. apply (zip_fmap3 _ _ _ kept).
Qed.

(** C7.  The matrix handed to ALS holds, at every coordinate, the sum of
    [1 + alpha * rating] over the surviving interactions mapped to that
    coordinate (repeated (user, movie) pairs add up), and stores nothing,
    hence reads as zero, where no surviving interaction lands.  The bounds
    keep the dense indices inside [int32]. *)
Theorem confidence_cells_add_up args movies_id raw :
  Z.of_nat (length raw) ≤ 2 ^ 31 →
  Z.of_nat (length movies_id) ≤ 2 ^ 31 →
  let kept := prune args movies_id raw in
  let u2r := user2row_of kept in
  let i2c := item2col_of movies_id in
  ∃ M, main args movies_id raw = Ok M ∧
    ∀ r c,
      cell M r c = sum_Qc (confidence args <$> filter (lands_on u2r i2c r c) kept) ∧
      ((∀ x, x ∈ kept → ¬ lands_on u2r i2c r c x) →
         M !! (r, c) = None ∧ cell M r c = 0%Qc).
Proof.
  intros Hraw Hmov kept u2r i2c.
  assert (Hk : Z.of_nat (length kept) ≤ 2 ^ 31).
  { pose proof (length_prune args movies_id raw). unfold kept. lia. }
  destruct (build_confidence_ok args movies_id kept Hk Hmov) as [Hsome HC].
  { intros x. apply kept_movie_in_metadata. }
  fold u2r i2c in Hsome, HC.
  eexists. split.
  { unfold main. fold kept u2r i2c. rewrite HC. reflexivity. }
  intros r c.
  assert (Hsum : ∀ m es, foldl (λ m e, <[e.1 := (default 0 (m !! e.1) + e.2)%Qc]> m) m es
                 = foldl accumulate m es) by reflexivity.
  unfold tocsr. simpl entries. rewrite Hsum. split.
  - rewrite foldl_accumulate_cell, sum_landing by done.
    unfold cell. rewrite lookup_empty. simpl. apply Qcplus_0_l.
  - intros Hnone.
    assert (Habs : foldl accumulate ∅
              ((λ x, (dense u2r (userId x), dense i2c (movieId x), confidence args x))
                 <$> kept) !! (r, c) = None).
    { apply foldl_accumulate_absent; [apply lookup_empty|].
      intros e (x & -> & Hx)%list_elem_of_fmap. simpl. intros Heq.
      apply (Hnone x Hx). destruct (Hsome x Hx) as [[i Hi] [j Hj]].
      unfold lands_on. unfold dense in Heq. rewrite Hi, Hj in Heq |- *.
      simpl in Heq. by injection Heq as -> ->. }
    split; [done|]. unfold cell. by rewrite Habs.
Qed.

(** The theorem at a run with a repeated (user, movie) pair. *)
Lemma confidence_cells_add_up_witness :
  ∃ M, main args00 [10; 20] raw_dup = Ok M ∧
    ∀ r c,
      cell M r c =
        sum_Qc (confidence args00 <$>
                  filter (lands_on (user2row_of (prune args00 [10; 20] raw_dup))
                                   (item2col_of [10; 20]) r c)
                         (prune args00 [10; 20] raw_dup)) ∧
      ((∀ x, x ∈ prune args00 [10; 20] raw_dup →
             ¬ lands_on (user2row_of (prune args00 [10; 20] raw_dup))
                        (item2col_of [10; 20]) r c x) →
         M !! (r, c) = None ∧ cell M r c = 0%Qc).
Proof.
  apply (confidence_cells_add_up args00 [10; 20] raw_dup); vm_compute; discriminate.
Defined.

(** *** The index maps and their inverses *)

Lemma enumerate_from_lookup_iff s keys d k i :
  NoDup keys →
  enumerate_from s keys d !! k = Some i ↔
  (∃ n : nat, keys !! n = Some k ∧ i = s + Z.of_nat n) ∨ ((k ∉ keys) ∧ d !! k = Some i).
Proof.
  revert s d. induction keys as [|k' keys IH]; intros s d Hnd; simpl.
  { split; [intros ?; right; split; [apply not_elem_of_nil|done]|].
    intros [(n & Hn & _)|[_ ?]]; [by rewrite lookup_nil in Hn|done]. }
  apply NoDup_cons in Hnd as [Hk' Hnd]. rewrite IH by done. split.
  - intros [(n & Hn & ->)|[Hnin Hl]].
    + left. exists (S n). split; [done|lia].
    + destruct (decide (k = k')) as [->|Hne].
      * rewrite lookup_insert_eq in Hl. injection Hl as <-.
        left. exists 0%nat. split; [done|lia].
      * rewrite lookup_insert_ne in Hl by done. right. split; [|done].
        by apply not_elem_of_cons.
  - intros [(n & Hn & ->)|[Hnin Hl]].
    + destruct n as [|n]; simpl in Hn.
      * injection Hn as ->. right. split; [done|].
        rewrite lookup_insert_eq. f_equal. lia.
      * left. exists n. split; [done|lia].
    + apply not_elem_of_cons in Hnin as [Hne Hnin]. right. split; [done|].
      by rewrite lookup_insert_ne.
Qed.

Lemma enumerate_dict_lookup_iff keys k i :
  NoDup keys →
  enumerate_dict keys !! k = Some i ↔ ∃ n : nat, keys !! n = Some k ∧ i = Z.of_nat n.
Proof.
  intros Hnd. unfold enumerate_dict. rewrite enumerate_from_lookup_iff by done.
  split.
  - intros [(n & ? & ->)|[_ ?]]; [|done]. exists n. split; [done|lia].
  - intros (n & ? & ->). left. exists n. split; [done|lia].
Qed.

Lemma reverse_dict_from_lookup (s : nat) (keys : list Z) (d : gmap Z Z) (i : Z) :
  foldl (λ (d : gmap Z Z) (kv : Z * Z), <[kv.2 := kv.1]> d) d (zip keys (Z.of_nat <$> seq s (length keys))) !! i =
  if decide (Z.of_nat s ≤ i < Z.of_nat s + Z.of_nat (length keys))
  then keys !! (Z.to_nat i - s)%nat else d !! i.
Proof.
  revert s d. induction keys as [|k keys IH]; intros s d; simpl.
  { rewrite decide_False by lia. done. }
  rewrite IH. simpl.
  destruct (decide (Z.of_nat s ≤ i < Z.of_nat s + Z.of_nat (S (length keys)))) as [Hin|Hout].
  - destruct (decide (i = Z.of_nat s)) as [->|Hne].
    + rewrite decide_False by lia. rewrite lookup_insert_eq.
      replace (Z.to_nat (Z.of_nat s) - s)%nat with 0%nat by lia. done.
    + rewrite decide_True by lia.
      replace (Z.to_nat i - s)%nat with (S (Z.to_nat i - S s)) by lia. done.
  - rewrite decide_False by lia. rewrite lookup_insert_ne by lia. done.
Qed.

Lemma reverse_dict_enumerate_lookup keys i k :
  reverse_dict (enumerate_items keys) !! i = Some k ↔
  ∃ n : nat, keys !! n = Some k ∧ i = Z.of_nat n.
Proof.
  unfold reverse_dict, enumerate_items. rewrite (reverse_dict_from_lookup 0).
  case_decide as Hr; rewrite ?lookup_empty; split.
  - intros Hl. exists (Z.to_nat i). rewrite Nat.sub_0_r in Hl. split; [done|lia].
  - intros (n & Hn & ->). by rewrite Nat.sub_0_r, Nat2Z.id.
  - done.
  - intros (n & Hn & ->). apply lookup_lt_Some in Hn. lia.
Qed.

(** X1.  The four dictionaries of the mapping artefact are mutually
    inverse: [row2user] sends a row back to the user [user2row] sent there
    and to nothing else, and likewise [col2item] and [item2col]. *)
Theorem mappings_round_trip args movies_id raw :
  (∀ u r, user2row (mappings_of args movies_id raw) !! u = Some r ↔
          row2user (mappings_of args movies_id raw) !! r = Some u) ∧
  (∀ i c, item2col (mappings_of args movies_id raw) !! i = Some c ↔
          col2item (mappings_of args movies_id raw) !! c = Some i).
Proof.
  unfold mappings_of. simpl. split; intros k i.
  - rewrite enumerate_dict_lookup_iff by apply NoDup_unique.
    by rewrite reverse_dict_enumerate_lookup.
  - rewrite enumerate_dict_lookup_iff by apply NoDup_unique.
    by rewrite reverse_dict_enumerate_lookup.
Qed.

(** X2.  Dense rows are the positions 0, 1, 2, ... of the surviving users
    in order of first appearance in the pruned frame; dense columns are the
    positions of the metadata ids in metadata order, first occurrences
    only; the two dictionaries have as many entries as there are distinct
    surviving users and distinct metadata ids. *)
Theorem dense_indices_in_order args movies_id raw :
  (∀ u r, user2row_of (prune args movies_id raw) !! u = Some r ↔
          ∃ n : nat, unique (userId <$> prune args movies_id raw) !! n = Some u ∧
                     r = Z.of_nat n) ∧
  (∀ i c, item2col_of movies_id !! i = Some c ↔
          ∃ n : nat, unique movies_id !! n = Some i ∧ c = Z.of_nat n) ∧
  size (user2row_of (prune args movies_id raw))
    = length (unique (userId <$> prune args movies_id raw)) ∧
  size (item2col_of movies_id) = length (unique movies_id).
Proof.
  unfold user2row_of, item2col_of, all_item_ids.
  split; [|split; [|split]].
  - intros u r. apply enumerate_dict_lookup_iff, NoDup_unique.
  - intros i c. apply enumerate_dict_lookup_iff, NoDup_unique.
  - apply enumerate_dict_size, NoDup_unique.
  - apply enumerate_dict_size, NoDup_unique.
Qed.

Lemma elem_of_dom_enumerate_dict keys k : k ∈ dom (enumerate_dict keys) ↔ k ∈ keys.
Proof.
  unfold enumerate_dict. rewrite enumerate_from_dom, dom_empty_L.
  rewrite elem_of_union, elem_of_list_to_set. set_solver.
Qed.

(** X3.  A user has a row exactly when one of its interactions survives
    the pruning, and such a user has at least [min_user_cnt] raw
    interactions; a movie has a column exactly when it is in the metadata,
    whether or not any interaction with it survives. *)
Theorem row_space_has_active_users_only args movies_id raw :
  (∀ u, u ∈ dom (user2row_of (prune args movies_id raw)) ↔
        ∃ x, x ∈ prune args movies_id raw ∧ userId x = u) ∧
  (∀ u, u ∈ dom (user2row_of (prune args movies_id raw)) →
        min_user_cnt args ≤ Z.of_nat (user_count raw u)) ∧
  (∀ i, i ∈ dom (item2col_of movies_id) ↔ i ∈ movies_id).
Proof.
  assert (Hdom : ∀ u, u ∈ dom (user2row_of (prune args movies_id raw)) ↔
                      ∃ x, x ∈ prune args movies_id raw ∧ userId x = u).
  { intros u. unfold user2row_of.
    rewrite elem_of_dom_enumerate_dict, elem_of_unique, list_elem_of_fmap.
    naive_solver. }
  split; [done|]. split.
  - intros u (x & Hx & <-)%Hdom.
    unfold prune in Hx. rewrite prune_items_filter, prune_users_filter in Hx.
    rewrite !list_elem_of_filter in Hx. tauto.
  - intros i. unfold item2col_of, all_item_ids.
    by rewrite elem_of_dom_enumerate_dict, elem_of_unique.
Qed.

(** The cast of a partly mapped column. *)
Lemma mapM_out_get_raises (d : gmap Z Z) (col : list Z) e :
  mapM_out (λ k, match d !! k with
                 | Some i => Ok (int32 i)
                 | None => Raise ValueError
                 end) col = Raise e →
  e = ValueError ∧ ∃ k, k ∈ col ∧ d !! k = None.
Proof.
  induction col as [|k col IH]; simpl; [done|].
  destruct (d !! k) eqn:Hk; simpl.
  - destruct (mapM_out _ col) eqn:E; simpl; [done|].
    intros [= <-]. destruct IH as (-> & k' & ? & ?); [done|].
    split; [done|]. exists k'. split; [by right|done].
  - intros [= <-]. split; [done|]. exists k. split; [by left|done].
Qed.

Lemma mapM_out_get_missing (d : gmap Z Z) (col : list Z) k :
  k ∈ col → d !! k = None →
  mapM_out (λ k, match d !! k with
                 | Some i => Ok (int32 i)
                 | None => Raise ValueError
                 end) col = Raise ValueError.
Proof.
  induction col as [|k' col IH]; intros Hin Hk.
  { by apply elem_of_nil in Hin. }
  simpl. apply elem_of_cons in Hin as [<-|Hin].
  - by rewrite Hk.
  - destruct (d !! k'); [|done]. simpl. by rewrite IH.
Qed.

(** A column that is not missing as a whole holds a key that is found. *)
Lemma some_key_found (d : gmap Z Z) (col : list Z) :
  ¬ (∀ k, k ∈ col → d !! k = None) → ∃ k, k ∈ col ∧ is_Some (d !! k).
Proof.
  intros Hn. induction col as [|k col IH].
  { exfalso. apply Hn. intros k Hk. by apply elem_of_nil in Hk. }
  destruct (d !! k) eqn:E.
  - exists k. split; [by left|]. by rewrite E.
  - destruct IH as (k' & Hk' & Hs).
    + intros Hall. apply Hn. intros k' [->|Hk']%elem_of_cons; [done|by apply Hall].
    + exists k'. split; [by right|done].
Qed.

(** What the mapped column raises: [TypeError] when no key of a column
    with rows is found, [ValueError] when some are found and some not. *)
Lemma map_get_int32_raises d col e :
  map_get_int32 d col = Raise e →
  (e = TypeError ∧ ∀ k, k ∈ col → d !! k = None) ∨
  (e = ValueError ∧ (∃ k, k ∈ col ∧ d !! k = None) ∧ (∃ k, k ∈ col ∧ is_Some (d !! k))).
Proof.
  unfold map_get_int32. case_decide as Hall.
  - intros [= <-]. left. split; [done|]. destruct Hall as [_ HF].
    by apply Forall_forall.
  - intros He. right. apply mapM_out_get_raises in He as (-> & k & Hk & Hnone).
    split; [done|]. split; [by exists k|].
    apply some_key_found. intros Hnone'. apply Hall. split.
    + intros ->. by apply elem_of_nil in Hk.
    + by apply Forall_forall.
Qed.

Lemma map_get_int32_none d col :
  col ≠ [] → (∀ k, k ∈ col → d !! k = None) → map_get_int32 d col = Raise TypeError.
Proof.
  intros Hne Hall. unfold map_get_int32. rewrite decide_True; [done|].
  split; [done|]. by apply Forall_forall.
Qed.

Lemma map_get_int32_some d col k k' :
  k ∈ col → d !! k = None → k' ∈ col → is_Some (d !! k') →
  map_get_int32 d col = Raise ValueError.
Proof.
  intros Hk Hnone Hk' [i Hi]. unfold map_get_int32. rewrite decide_False.
  - by apply (mapM_out_get_missing d col k).
  - intros [_ HF]. rewrite Forall_forall in HF. specialize (HF k' Hk'). congruence.
Qed.

(** X4.  [build_confidence] called with a dictionary that lacks the user
    or the movie of some rating raises, and builds no partial matrix.  It
    raises [TypeError] when no user of the frame has a row, or when every
    user has one and no movie has a column; in every other case, where a
    cast meets found and missing keys side by side, it raises
    [ValueError]. *)
Theorem build_confidence_missing_key ratings u2r i2c a :
  (∃ x, x ∈ ratings ∧ (u2r !! userId x = None ∨ i2c !! movieId x = None)) →
  ∃ e, build_confidence ratings u2r i2c a = Raise e ∧
       (e = TypeError ∨ e = ValueError) ∧
       (e = TypeError ↔
          (∀ x, x ∈ ratings → u2r !! userId x = None) ∨
          ((∀ x, x ∈ ratings → is_Some (u2r !! userId x)) ∧
           (∀ x, x ∈ ratings → i2c !! movieId x = None))).
Proof.
  intros (x & Hx & Hmiss). unfold build_confidence.
  assert (Hxu : userId x ∈ userId <$> ratings) by (apply list_elem_of_fmap; eauto).
  assert (Hxi : movieId x ∈ movieId <$> ratings) by (apply list_elem_of_fmap; eauto).
  destruct (map_get_int32 u2r (userId <$> ratings)) as [rows|e] eqn:Hr; simpl.
  - assert (Hpresent : ∀ y, y ∈ ratings → is_Some (u2r !! userId y)).
    { intros y Hy. destruct (u2r !! userId y) eqn:E; [done|]. exfalso.
      assert (Hyu : userId y ∈ userId <$> ratings) by (apply list_elem_of_fmap; eauto).
      destruct (decide (Forall (λ k, u2r !! k = None) (userId <$> ratings))) as [Hall|Hnall];
        rewrite Forall_forall in *.
      - rewrite map_get_int32_none in Hr; [done| |done].
        intros Hnil. rewrite Hnil in Hyu. by apply elem_of_nil in Hyu.
      - destruct (some_key_found u2r _ Hnall) as (k' & Hk' & Hs).
        by rewrite (map_get_int32_some u2r _ (userId y) k') in Hr. }
    destruct Hmiss as [Hu|Hi]; [destruct (Hpresent x Hx); congruence|].
    destruct (map_get_int32 i2c (movieId <$> ratings)) as [cols|e] eqn:Hc; simpl.
    + exfalso.
      destruct (decide (Forall (λ k, i2c !! k = None) (movieId <$> ratings))) as [Hall|Hnall];
        rewrite Forall_forall in *.
      * rewrite map_get_int32_none in Hc; [done| |done].
        intros Hnil. rewrite Hnil in Hxi. by apply elem_of_nil in Hxi.
      * destruct (some_key_found i2c _ Hnall) as (k' & Hk' & Hs).
        by rewrite (map_get_int32_some i2c _ (movieId x) k') in Hc.
    + exists e. split; [done|].
      apply map_get_int32_raises in Hc as [[-> Hall]|(-> & _ & k' & Hk' & Hs)].
      * split; [by left|]. split; [|done]. intros _. right. split; [done|].
        intros y Hy. apply Hall, list_elem_of_fmap. eauto.
      * split; [by right|]. split; [done|].
        intros [Hnone|[_ Hnone]].
        -- destruct (Hpresent x Hx). rewrite Hnone in *; done.
        -- apply list_elem_of_fmap in Hk' as (y & -> & Hy).
           rewrite Hnone in Hs by done. by destruct Hs.
  - exists e. split; [done|].
    apply map_get_int32_raises in Hr as [[-> Hall]|(-> & (k & Hk & Hkn) & k' & Hk' & Hs)].
    + split; [by left|]. split; [|done]. intros _. left.
      intros y Hy. apply Hall, list_elem_of_fmap. eauto.
    + split; [by right|]. split; [done|].
      apply list_elem_of_fmap in Hk' as (y & -> & Hy).
      apply list_elem_of_fmap in Hk as (z & -> & Hz).
      intros [Hnone|[Hsome _]].
      * rewrite Hnone in Hs by done. by destruct Hs.
      * destruct (Hsome z Hz). congruence.
Qed.

(** The theorem at two frames: one rating whose user has no row (no key
    of the column is found), and two ratings of which the second user has
    no row (found and missing keys side by side). *)
Lemma build_confidence_missing_key_witness :
  build_confidence [mkInteraction 1 10 (Q2Qc 5)] ∅ {[10 := 0]} (Q2Qc 40)
    = Raise TypeError ∧
  build_confidence [mkInteraction 1 10 (Q2Qc 5); mkInteraction 2 10 (Q2Qc 4)]
    {[1 := 0]} {[10 := 0]} (Q2Qc 40) = Raise ValueError ∧
  (∃ e, build_confidence [mkInteraction 1 10 (Q2Qc 5); mkInteraction 2 10 (Q2Qc 4)]
          {[1 := 0]} {[10 := 0]} (Q2Qc 40) = Raise e ∧
        (e = TypeError ∨ e = ValueError) ∧
        (e = TypeError ↔
           (∀ x, x ∈ [mkInteraction 1 10 (Q2Qc 5); mkInteraction 2 10 (Q2Qc 4)] →
                 ({[1 := 0]} : gmap Z Z) !! userId x = None) ∨
           ((∀ x, x ∈ [mkInteraction 1 10 (Q2Qc 5); mkInteraction 2 10 (Q2Qc 4)] →
                  is_Some (({[1 := 0]} : gmap Z Z) !! userId x)) ∧
            (∀ x, x ∈ [mkInteraction 1 10 (Q2Qc 5); mkInteraction 2 10 (Q2Qc 4)] →
                  ({[10 := 0]} : gmap Z Z) !! movieId x = None)))).
Proof.
  split; [vm_compute; reflexivity|]. split; [vm_compute; reflexivity|].
  apply (build_confidence_missing_key
           [mkInteraction 1 10 (Q2Qc 5); mkInteraction 2 10 (Q2Qc 4)]
           {[1 := 0]} {[10 := 0]} (Q2Qc 40)).
  exists (mkInteraction 2 10 (Q2Qc 4)). split; [right; by left|]. left. reflexivity.
Defined.

Lemma foldl_accumulate_present es m e :
  e ∈ es → is_Some (foldl accumulate m es !! e.1).
Proof.
  assert (Hkeep : ∀ es m rc, is_Some (m !! rc) → is_Some (foldl accumulate m es !! rc)).
  { clear. induction es as [|e es IH]; intros m rc Hm; simpl; [done|].
    apply IH. unfold accumulate.
    destruct (decide (e.1 = rc)) as [->|]; [by rewrite lookup_insert_eq|].
    by rewrite lookup_insert_ne. }
  revert m. induction es as [|e' es IH]; intros m Hin; [by apply elem_of_nil in Hin|].
  simpl. apply elem_of_cons in Hin as [<-|Hin]; [|by apply IH].
  apply Hkeep. unfold accumulate. by rewrite lookup_insert_eq.
Qed.

Lemma foldl_accumulate_stored es rc :
  is_Some (foldl accumulate ∅ es !! rc) → ∃ e, e ∈ es ∧ e.1 = rc.
Proof.
  intros Hs. destruct (decide (Exists (λ e : Z * Z * Qc, e.1 = rc) es)) as [He|He].
  - apply Exists_exists in He. done.
  - rewrite foldl_accumulate_absent in Hs; [by destruct Hs| apply lookup_empty |].
    intros e He' Heq. apply He, Exists_exists. eauto.
Qed.

(** X5.  Every stored coordinate of the matrix lies inside its shape, and
    every row of the matrix has a stored cell: no user of the row space is
    without evidence.  The bounds keep the dense indices inside [int32]. *)
Theorem confidence_rows_are_inhabited args movies_id raw :
  Z.of_nat (length raw) ≤ 2 ^ 31 →
  Z.of_nat (length movies_id) ≤ 2 ^ 31 →
  ∃ M, main args movies_id raw = Ok M ∧
    (∀ r c, is_Some (M !! (r, c)) →
       0 ≤ r < Z.of_nat (size (user2row_of (prune args movies_id raw))) ∧
       0 ≤ c < Z.of_nat (size (item2col_of movies_id))) ∧
    (∀ r, 0 ≤ r < Z.of_nat (size (user2row_of (prune args movies_id raw))) →
       ∃ c, is_Some (M !! (r, c))).
Proof.
  intros Hraw Hmov.
  set (kept := prune args movies_id raw).
  set (u2r := user2row_of kept). set (i2c := item2col_of movies_id).
  assert (Hk : Z.of_nat (length kept) ≤ 2 ^ 31).
  { pose proof (length_prune args movies_id raw). unfold kept. lia. }
  destruct (build_confidence_ok args movies_id kept Hk Hmov) as [Hsome HC].
  { intros x. apply kept_movie_in_metadata. }
  fold u2r i2c in Hsome, HC.
  eexists. split.
  { unfold main. fold kept u2r i2c. rewrite HC. reflexivity. }
  assert (Hsum : ∀ m es, foldl (λ m e, <[e.1 := (default 0 (m !! e.1) + e.2)%Qc]> m) m es
                 = foldl accumulate m es) by reflexivity.
  unfold tocsr. simpl entries. rewrite Hsum.
  assert (Hsu : size u2r = length (unique (userId <$> kept)))
    by apply enumerate_dict_size, NoDup_unique.
  assert (Hsi : size i2c = length (all_item_ids movies_id))
    by apply enumerate_dict_size, NoDup_unique.
  split.
  - intros r c (e & (x & -> & Hx)%list_elem_of_fmap & Heq)%foldl_accumulate_stored.
    simpl in Heq. injection Heq as <- <-.
    destruct (enumerate_dict_lookup (unique (userId <$> kept)) (userId x)) as (j & Hj & ?).
    { apply elem_of_unique, list_elem_of_fmap. eauto. }
    destruct (enumerate_dict_lookup (all_item_ids movies_id) (movieId x)) as (j' & Hj' & ?).
    { by apply (kept_movie_in_metadata args movies_id raw). }
    unfold dense. fold (user2row_of kept) in Hj. fold (item2col_of movies_id) in Hj'.
    fold u2r in Hj. fold i2c in Hj'. rewrite Hj, Hj'. simpl. lia.
  - intros r Hr.
    destruct (lookup_lt_is_Some_2 (unique (userId <$> kept)) (Z.to_nat r)) as [u Hu]; [lia|].
    assert (Hur : u2r !! u = Some r).
    { apply enumerate_dict_lookup_iff; [apply NoDup_unique|].
      exists (Z.to_nat r). split; [done|lia]. }
    apply list_elem_of_lookup_2, elem_of_unique, list_elem_of_fmap in Hu as (x & -> & Hx).
    exists (dense i2c (movieId x)).
    assert (He : (dense u2r (userId x), dense i2c (movieId x), confidence args x)
                 ∈ (λ x, (dense u2r (userId x), dense i2c (movieId x), confidence args x))
                     <$> kept).
    { apply list_elem_of_fmap. eauto. }
    apply (foldl_accumulate_present _ ∅) in He. simpl in He.
    unfold dense at 1 in He. by rewrite Hur in He.
Qed.

(** The theorem at the run with a repeated (user, movie) pair. *)
Lemma confidence_rows_are_inhabited_witness :
  ∃ M, main args00 [10; 20] raw_dup = Ok M ∧
    (∀ r c, is_Some (M !! (r, c)) →
       0 ≤ r < Z.of_nat (size (user2row_of (prune args00 [10; 20] raw_dup))) ∧
       0 ≤ c < Z.of_nat (size (item2col_of [10; 20]))) ∧
    (∀ r, 0 ≤ r < Z.of_nat (size (user2row_of (prune args00 [10; 20] raw_dup))) →
       ∃ c, is_Some (M !! (r, c))).
Proof.
  apply (confidence_rows_are_inhabited args00 [10; 20] raw_dup); vm_compute; discriminate.
Defined.

End MFFacts.

(** * Properties of [05_build_features.py] *)

Module FeatureFacts.
Import BuildFeatures FeatureSpec.

(** ** [sample_easy_neg] *)

Lemma choice_eq pool rng : choice pool rng = ((choice pool rng).1, advance rng).
Proof. done. Qed.

Lemma choice_elem_of pool rng : pool ≠ [] → (choice pool rng).1 ∈ pool.
Proof.
  intros Hne. unfold choice, choice_index. simpl. apply nth_elem_of.
  apply Nat.mod_upper_bound. by destruct pool.
Qed.

Lemma sample_loop_unfold fuel pool n seen out rng :
  sample_loop fuel pool n seen out rng =
  if decide (length out < n)%nat then
    match fuel with
    | O => None
    | S fuel' =>
        if decide ((choice pool rng).1 ∈ seen)
        then sample_loop fuel' pool n seen out (advance rng)
        else sample_loop fuel' pool n ({[(choice pool rng).1]} ∪ seen)
               (out ++ [(choice pool rng).1]) (advance rng)
    end
  else Some (out, seen, rng).
Proof. by destruct fuel. Qed.

(** More fuel does not change a result. *)
Lemma sample_loop_mono fuel fuel' pool n seen out rng r :
  (fuel ≤ fuel')%nat →
  sample_loop fuel pool n seen out rng = Some r →
  sample_loop fuel' pool n seen out rng = Some r.
Proof.
  revert fuel' seen out rng.
  induction fuel as [|fuel IH]; intros fuel' seen out rng Hle;
    rewrite (sample_loop_unfold fuel'), sample_loop_unfold;
    case_decide; try done.
  destruct fuel' as [|fuel']; [lia|].
  case_decide; apply IH; lia.
Qed.

Lemma sample_easy_neg_mono fuel fuel' seen pool n rng r :
  (fuel ≤ fuel')%nat →
  sample_easy_neg fuel seen pool n rng = Some r →
  sample_easy_neg fuel' seen pool n rng = Some r.
Proof.
  unfold sample_easy_neg. intros Hle. case_decide; [done|].
  by apply sample_loop_mono.
Qed.

(** What the loop has done when it returns. *)
Lemma sample_loop_result fuel pool n seen out rng out' seen' rng' :
  sample_loop fuel pool n seen out rng = Some (out', seen', rng') →
  ∃ new, out' = out ++ new ∧ NoDup new ∧ (∀ x, x ∈ new → x ∉ seen) ∧
         seen' = list_to_set new ∪ seen ∧
         ((length out ≤ n)%nat → length out' = n) ∧
         (pool ≠ [] → ∀ x, x ∈ new → x ∈ pool) ∧
         raw rng' = raw rng ∧ (pos rng ≤ pos rng' ≤ pos rng + fuel)%nat.
Proof.
  revert seen out rng.
  induction fuel as [|fuel IH]; intros seen out rng;
    rewrite sample_loop_unfold; case_decide as Hlt; try done.
  1,3: intros [= <- <- <-]; exists []; rewrite app_nil_r;
       repeat split; try lia; try constructor; try set_solver.
  case_decide as Hseen; intros Hrun; apply IH in Hrun
    as (new & -> & Hnd & Hfresh & -> & Hlen & Hpool & Hraw & Hpos); simpl in *.
  - exists new. repeat split; try done; lia.
  - exists ((choice pool rng).1 :: new). rewrite <- app_assoc. simpl.
    repeat split; try done.
    + constructor; [|done]. intros Hin. apply Hfresh in Hin. set_solver.
    + intros x [->|Hin]%elem_of_cons; [done|]. apply Hfresh in Hin. set_solver.
    + set_solver.
    + intros _. rewrite <- app_assoc in Hlen. apply Hlen.
      rewrite length_app. simpl. lia.
    + intros Hne x [->|Hin]%elem_of_cons; [by apply choice_elem_of|by apply Hpool].
    + lia.
    + lia.
Qed.

Lemma sample_easy_neg_result fuel seen pool n rng out seen' rng' :
  sample_easy_neg fuel seen pool n rng = Some (out, seen', rng') →
  NoDup out ∧ (∀ x, x ∈ out → (x ∉ seen) ∧ (x ∈ pool)) ∧
  seen' = list_to_set out ∪ seen ∧
  (out = [] ∨ length out = n) ∧
  raw rng' = raw rng ∧ (pos rng ≤ pos rng')%nat.
Proof.
  unfold sample_easy_neg. case_decide as Hguard.
  - intros [= <- <- <-]. repeat split; try constructor; try set_solver; auto.
  - intros (new & -> & Hnd & Hfresh & -> & Hlen & Hpool & Hraw & Hpos)%sample_loop_result.
    simpl in *. repeat split; try done.
    + by apply Hfresh.
    + apply Hpool; [|done]. intros ->. apply Hguard. by right.
    + right. apply Hlen. lia.
    + lia.
Qed.

Lemma NoDup_length_filter_ne (y : Z) (xs : list Z) :
  NoDup xs → (length xs ≤ S (length (filter (λ x, x ≠ y) xs)))%nat.
Proof.
  induction 1 as [|x xs Hx Hnd IH]; simpl; [lia|].
  rewrite filter_cons. destruct (decide (x ≠ y)) as [Hne|Heq]; simpl; [lia|].
  assert (x = y) as -> by (destruct (decide (x = y)); tauto).
  rewrite filter_True_id; [lia|]. intros x' Hx' ->. done.
Qed.

(** The loop returns once enough distinct unseen items have been drawn. *)
Lemma sample_loop_returns d pool n seen out rng xs :
  NoDup xs → (n ≤ length out + length xs)%nat →
  (∀ x, x ∈ xs → (x ∉ seen) ∧ (x ∈ draws pool rng d)) →
  ∃ r, sample_loop d pool n seen out rng = Some r.
Proof.
  revert seen out rng xs.
  induction d as [|d IH]; intros seen out rng xs Hnd Hlen Hxs;
    rewrite sample_loop_unfold; case_decide as Hlt; eauto.
  - destruct xs as [|x xs]; [simpl in *; lia|].
    destruct (Hxs x) as [_ Hin]; [by left|]. by apply elem_of_nil in Hin.
  - simpl in Hxs. case_decide as Hseen.
    + apply (IH _ _ _ xs); [done|done|]. intros x Hx.
      destruct (Hxs x Hx) as [Hfresh Hin]. split; [done|].
      apply elem_of_cons in Hin as [->|?]; done.
    + apply (IH _ _ _ (filter (λ x, x ≠ (choice pool rng).1) xs)).
      * by apply NoDup_filter.
      * pose proof (NoDup_length_filter_ne (choice pool rng).1 xs Hnd).
        rewrite length_app. cbn [length]. lia.
      * intros x [Hne Hx]%list_elem_of_filter.
        destruct (Hxs x Hx) as [Hfresh Hin]. split; [set_solver|].
        apply elem_of_cons in Hin as [->|?]; done.
Qed.

(** C3, as the code has it.  [sample_easy_neg] returns the empty list at
    once, and without any error, when nothing is requested or the pool is
    empty; otherwise it returns its [n] items as soon as the generator has
    drawn [n] distinct unseen items: when that happens within [fuel] draws,
    [fuel] iterations of the loop are enough. *)
Theorem sample_easy_neg_returns fuel seen pool n rng :
  (n = 0%nat ∨ pool = []) ∨
  (∃ xs, NoDup xs ∧ length xs = n ∧
         ∀ x, x ∈ xs → (x ∉ seen) ∧ (x ∈ draws pool rng fuel)) →
  ∃ out seen' rng',
    sample_easy_neg fuel seen pool n rng = Some (out, seen', rng') ∧
    if decide (n = 0%nat ∨ pool = [])
    then out = [] ∧ seen' = seen ∧ rng' = rng
    else length out = n ∧ NoDup out ∧ ∀ x, x ∈ out → (x ∉ seen) ∧ (x ∈ pool).
Proof.
  intros Hcase.
  assert (Hguard : (n = 0%nat ∨ length pool = 0%nat) ↔ (n = 0%nat ∨ pool = [])).
  { destruct pool; simpl; intuition (done || lia). }
  destruct (decide (n = 0%nat ∨ pool = [])) as [Hg|Hg].
  - exists [], seen, rng. unfold sample_easy_neg.
    rewrite decide_True by (by apply Hguard). done.
  - destruct Hcase as [?|(xs & Hnd & Hlen & Hxs)]; [done|].
    assert (∃ r, sample_easy_neg fuel seen pool n rng = Some r) as [[[out seen'] rng'] Hr].
    { unfold sample_easy_neg. rewrite decide_False by (by rewrite Hguard).
      apply (sample_loop_returns _ _ _ _ _ _ xs); simpl; [done|lia|done]. }
    exists out, seen', rng'. split; [done|].
    pose proof (sample_easy_neg_result _ _ _ _ _ _ _ _ Hr)
      as (Hnd' & Hfresh & _ & Hlen' & _).
    repeat split; try done; try (by apply Hfresh).
    destruct Hlen' as [->|?]; [|done].
    unfold sample_easy_neg in Hr. rewrite decide_False in Hr by (by rewrite Hguard).
    apply sample_loop_result in Hr as (new & Hout & _ & _ & _ & Hl & _).
    simpl in Hl. apply Hl. lia.
Qed.

(** The theorem at a run: pool [1; 2; 3], movie 1 already seen, one item
    requested, the generator drawing positions 0, 1, 2. *)
Lemma sample_easy_neg_returns_witness :
  ∃ out seen' rng',
    sample_easy_neg 3 {[1]} [1; 2; 3] 1 counting_rng = Some (out, seen', rng') ∧
    if decide (1%nat = 0%nat ∨ [1; 2; 3] = @nil Z)
    then out = [] ∧ seen' = {[1]} ∧ rng' = counting_rng
    else length out = 1%nat ∧ NoDup out ∧
         ∀ x, x ∈ out → (x ∉ ({[1]} : gset Z)) ∧ (x ∈ [1; 2; 3]).
Proof.
  apply (sample_easy_neg_returns 3 {[1]} [1; 2; 3] 1 counting_rng).
  right. exists [2]. split; [apply NoDup_singleton|]. split; [reflexivity|].
  intros x ->%list_elem_of_singleton.
  split; apply (bool_decide_unpack _); vm_compute; exact I.
Defined.

(** A pool whose items are all seen starves the loop, whatever the
    generator draws. *)
Lemma sample_loop_starves fuel pool n seen out rng :
  pool ≠ [] → (∀ x, x ∈ pool → x ∈ seen) → (length out < n)%nat →
  sample_loop fuel pool n seen out rng = None.
Proof.
  intros Hne Hall Hlt. revert rng.
  induction fuel as [|fuel IH]; intros rng;
    rewrite sample_loop_unfold, decide_True by done; [done|].
  rewrite decide_True by (by apply Hall, choice_elem_of). apply IH.
Qed.

(** C3, as stated, fails: with the pool [1; 2] entirely seen and one item
    requested, no number of iterations makes [sample_easy_neg] return, and
    nothing is raised. *)
Lemma sample_easy_neg_retries_forever :
  ¬ ∃ fuel r, sample_easy_neg fuel {[1; 2]} [1; 2] 1 counting_rng = Some r.
Proof.
  intros (fuel & r & Hr). unfold sample_easy_neg in Hr.
  rewrite decide_False in Hr by (simpl; lia).
  rewrite sample_loop_starves in Hr; [done|done| |simpl; lia].
  set_solver.
Qed.

(** ** The draw is uniform over the pool *)

Lemma NoDup_pop_items_of ratings : NoDup (pop_items_of ratings).
Proof.
  unfold pop_items_of. rewrite stable_sort_Permutation. apply NoDup_unique.
Qed.

Lemma elem_of_pop_items_of ratings x :
  x ∈ pop_items_of ratings ↔ x ∈ movieId <$> ratings.
Proof. unfold pop_items_of. by rewrite elem_of_stable_sort, elem_of_unique. Qed.

(** Every movie of the pool sits at exactly one position, however often it
    was rated: one draw gives each of them the same weight. *)
Lemma choice_outcomes_one ratings x :
  x ∈ pop_items_of ratings → choice_outcomes (pop_items_of ratings) x = 1%nat.
Proof. apply count_key_NoDup, NoDup_pop_items_of. Qed.

(** C4 at a concrete frame.  Movie 10 has three ratings and movie 20 one,
    yet each holds one of the two positions [rng.choice] picks from, so the
    weights are 1 : 1 and not 3 : 1; and the frame in which movie 10 has
    only two ratings gives the very same pool, hence the very same draws. *)
Lemma choice_ignores_popularity :
  pop_items_of ratings_3_1 = [10; 20] ∧
  popularity_of ratings_3_1 10 = 3%nat ∧ popularity_of ratings_3_1 20 = 1%nat ∧
  choice_outcomes (pop_items_of ratings_3_1) 10 = 1%nat ∧
  choice_outcomes (pop_items_of ratings_3_1) 20 = 1%nat ∧
  pop_items_of ratings_2_1 = pop_items_of ratings_3_1 ∧
  popularity_of ratings_2_1 10 = 2%nat.
Proof. repeat split; vm_compute; reflexivity. Qed.

(** ** Negatives of one user *)

Lemma elem_of_seen_items_of grp i : i ∈ seen_items_of grp ↔ i ∈ movieId <$> grp.
Proof. unfold seen_items_of. apply elem_of_list_to_set. Qed.

Lemma hard_neg_of_spec args movies cand_map uid seen :
  hard_neg_of args movies cand_map uid seen `sublist_of` default [] (cand_map !! uid) ∧
  (length (hard_neg_of args movies cand_map uid seen) ≤ hard_neg_count args)%nat ∧
  ∀ i, i ∈ hard_neg_of args movies cand_map uid seen → (i ∉ seen) ∧ (i ∈ dom movies).
Proof.
  unfold hard_neg_of. split; [|split].
  - etrans; [apply sublist_take|apply sublist_filter].
  - rewrite length_take. lia.
  - intros i Hi. apply elem_of_take in Hi as (j & Hj & _).
    apply list_elem_of_lookup_2 in Hj. apply list_elem_of_filter in Hj. tauto.
Qed.

Lemma easy_neg_of_spec fuel args movies pool seen hard rng easy rng' :
  easy_neg_of fuel args movies pool seen hard rng = Some (easy, rng') →
  NoDup easy ∧
  (∀ i, i ∈ easy → (i ∉ seen) ∧ (i ∈ pool) ∧ (i ∈ dom movies)) ∧
  raw rng' = raw rng ∧ (pos rng ≤ pos rng')%nat.
Proof.
  unfold easy_neg_of.
  destruct (sample_easy_neg fuel seen pool (easy_neg_count args) rng)
    as [[[ids seen1] rng1]|] eqn:H1; [|done].
  apply sample_easy_neg_result in H1 as (Hnd1 & Hf1 & _ & _ & Hraw1 & Hpos1).
  case_decide.
  - destruct (sample_easy_neg fuel seen pool 1 rng1)
      as [[[fb seen2] rng2]|] eqn:H2; [|done].
    apply sample_easy_neg_result in H2 as (Hnd2 & Hf2 & _ & _ & Hraw2 & Hpos2).
    intros [= <- <-]. split; [by apply NoDup_filter|].
    split; [|split; [congruence|lia]].
    intros i [Hm Hi]%list_elem_of_filter. destruct (Hf2 i Hi). done.
  - intros [= <- <-]. split; [by apply NoDup_filter|]. split; [|done].
    intros i [Hm Hi]%list_elem_of_filter. destruct (Hf1 i Hi). done.
Qed.

(** X22.  No negative of a user, hard or easy, the fallback draw included,
    is a movie the user has rated; the easy negatives are pairwise
    distinct; the hard negatives come in the order of the candidate list. *)
Theorem negatives_are_unrated fuel args movies cand_map pool uid grp rng easy rng' :
  let seen_items := seen_items_of grp in
  let hard_neg := hard_neg_of args movies cand_map uid seen_items in
  easy_neg_of fuel args movies pool seen_items hard_neg rng = Some (easy, rng') →
  (∀ i, i ∈ hard_neg ++ easy → i ∉ movieId <$> grp) ∧
  NoDup easy ∧
  hard_neg `sublist_of` default [] (cand_map !! uid).
Proof.
  intros seen_items hard_neg Hrun.
  apply easy_neg_of_spec in Hrun as (Hnd & Heasy & _).
  destruct (hard_neg_of_spec args movies cand_map uid seen_items) as (Hsub & _ & Hhard).
  split; [|done].
  intros i [Hi|Hi]%elem_of_app; rewrite <- elem_of_seen_items_of.
  - by apply Hhard.
  - by apply Heasy.
Qed.

(** The theorem at a run: user 1, who rated movie 5, with candidate 7, the
    pool [7; 5] and the generator drawing position 0. *)
Lemma negatives_are_unrated_witness :
  (∀ i, i ∈ hard_neg_of args_1_1 movies_7 cands_7 1 (seen_items_of grp_5) ++ [7] →
        i ∉ movieId <$> grp_5) ∧
  NoDup [7] ∧
  hard_neg_of args_1_1 movies_7 cands_7 1 (seen_items_of grp_5)
    `sublist_of` default [] (cands_7 !! 1).
Proof.
  apply (negatives_are_unrated 1 args_1_1 movies_7 cands_7 (pop_items_of ratings_7_5)
           1 grp_5 zero_rng [7] (advance zero_rng)).
  vm_compute. reflexivity.
Defined.

(** The set handed to [sample_easy_neg] is a copy of the rated movies
    only: here the easy draw returns movie 7 although it is already the
    hard negative. *)
Lemma easy_negative_repeats_hard :
  pop_items_of ratings_7_5 = [7; 5] ∧
  hard_neg_of args_1_1 movies_7 cands_7 1 (seen_items_of grp_5) = [7] ∧
  easy_neg_of 1 args_1_1 movies_7 (pop_items_of ratings_7_5) (seen_items_of grp_5)
    (hard_neg_of args_1_1 movies_7 cands_7 1 (seen_items_of grp_5)) zero_rng
    = Some ([7], advance zero_rng) ∧
  ¬ NoDup ([7] ++ [7] : list Z).
Proof.
  split; [vm_compute; reflexivity|].
  split; [vm_compute; reflexivity|]. split; [vm_compute; reflexivity|].
  intros Hnd. apply NoDup_cons in Hnd as [Hnin _]. apply Hnin. by left.
Qed.

(** ** The loop over users *)

Lemma easy_neg_of_mono fuel fuel' args movies pool seen hard rng r :
  (fuel ≤ fuel')%nat →
  easy_neg_of fuel args movies pool seen hard rng = Some r →
  easy_neg_of fuel' args movies pool seen hard rng = Some r.
Proof.
  intros Hle. unfold easy_neg_of.
  destruct (sample_easy_neg fuel seen pool (easy_neg_count args) rng)
    as [[[ids seen1] rng1]|] eqn:H1; [|done].
  rewrite (sample_easy_neg_mono _ _ _ _ _ _ _ Hle H1).
  case_decide; [|done].
  destruct (sample_easy_neg fuel seen pool 1 rng1)
    as [[[fb seen2] rng2]|] eqn:H2; [|done].
  by rewrite (sample_easy_neg_mono _ _ _ _ _ _ _ Hle H2).
Qed.

Lemma user_step_mono fuel fuel' args movies cand_map pool uid grp rng r :
  (fuel ≤ fuel')%nat →
  user_step fuel args movies cand_map pool uid grp rng = Some r →
  user_step fuel' args movies cand_map pool uid grp rng = Some r.
Proof.
  intros Hle. unfold user_step. case_decide; [done|].
  destruct (pos_rows_of movies uid (pos_items_of args grp)) as [[|row rows]|e]; try done.
  destruct (easy_neg_of fuel _ _ _ _ _ _) as [[easy rng1]|] eqn:H1; [|done].
  by rewrite (easy_neg_of_mono _ _ _ _ _ _ _ _ _ Hle H1).
Qed.

Lemma users_loop_mono fuel fuel' args movies cand_map pool groups rows kept rng r :
  (fuel ≤ fuel')%nat →
  users_loop fuel args movies cand_map pool groups rows kept rng = Some r →
  users_loop fuel' args movies cand_map pool groups rows kept rng = Some r.
Proof.
  intros Hle. revert rows kept rng.
  induction groups as [|[uid grp] groups IH]; intros rows kept rng; simpl; [done|].
  destruct (user_step fuel _ _ _ _ _ _ _) as [o|] eqn:H1; [|done].
  rewrite (user_step_mono _ _ _ _ _ _ _ _ _ _ Hle H1).
  destruct o as [[[|pos_rows neg_rows] rng1]|e]; [apply IH|apply IH|done].
Qed.

(** One user leaves the generator on the same stream, further along. *)
Lemma user_step_generator fuel args movies cand_map pool uid grp rng st rng' :
  user_step fuel args movies cand_map pool uid grp rng = Some (Ok (st, rng')) →
  raw rng' = raw rng ∧ (pos rng ≤ pos rng')%nat.
Proof.
  unfold user_step. case_decide; [by intros [= <- <-]|].
  destruct (pos_rows_of movies uid (pos_items_of args grp)) as [[|row rows]|e];
    [by intros [= <- <-]| |done].
  destruct (easy_neg_of fuel _ _ _ _ _ _) as [[easy rng1]|] eqn:H1; [|done].
  apply easy_neg_of_spec in H1 as (_ & _ & Hraw & Hpos).
  destruct (neg_rows_of _ _ _) as [[|r' rs']|e]; [| |done]; by intros [= <- <-].
Qed.

(** ** What [main] returns

    [make_row] has four parameters and both call sites pass five
    arguments, so the first positive that has metadata ends the run. *)

Lemma pos_rows_of_outcome movies uid l :
  pos_rows_of movies uid l =
  if decide (Exists (λ x, movieId x ∈ dom movies) l) then Raise TypeError else Ok [].
Proof.
  induction l as [|x l IH]; cbn [pos_rows_of].
  - rewrite decide_False; [done|]. by intros ?%Exists_nil.
  - destruct (movies !! movieId x) as [meta|] eqn:Hm.
    + destruct (decide (Exists _ (x :: l))) as [|Hn]; [reflexivity|].
      exfalso. apply Hn. left. apply elem_of_dom. eauto.
    + rewrite IH. apply not_elem_of_dom in Hm.
      destruct (decide (Exists _ l)) as [He|He].
      * rewrite decide_True; [done|]. by right.
      * rewrite decide_False; [done|]. intros [?|?]%Exists_cons; done.
Qed.

Lemma Exists_pos_items_of args movies grp :
  Exists (λ x, movieId x ∈ dom movies) (pos_items_of args grp) ↔
  Exists (rowable args movies) grp.
Proof.
  rewrite !Exists_exists. unfold pos_items_of, rowable, is_positive.
  setoid_rewrite elem_of_stable_sort. setoid_rewrite list_elem_of_filter.
  naive_solver.
Qed.

Lemma user_step_outcome fuel args movies cand_map pool uid grp rng :
  user_step fuel args movies cand_map pool uid grp rng =
  if decide (Exists (rowable args movies) grp)
  then Some (Raise TypeError) else Some (Ok (Skip, rng)).
Proof.
  unfold user_step. rewrite pos_rows_of_outcome.
  destruct (decide (Exists (rowable args movies) grp)) as [He|He].
  - rewrite decide_False.
    + rewrite decide_True; [done|]. by apply Exists_pos_items_of.
    + intros Hnil. apply Exists_pos_items_of in He. rewrite Hnil in He.
      by apply Exists_nil in He.
  - case_decide; [done|]. rewrite decide_False; [done|].
    by rewrite Exists_pos_items_of.
Qed.

Lemma users_loop_outcome fuel args movies cand_map pool groups rows kept rng :
  users_loop fuel args movies cand_map pool groups rows kept rng =
  if decide (Exists (λ ug, Exists (rowable args movies) ug.2) groups)
  then Some (Raise TypeError) else Some (Ok (rows, kept)).
Proof.
  revert rng. induction groups as [|[uid grp] groups IH]; intros rng;
    cbn [users_loop].
  - rewrite decide_False; [done|]. by intros ?%Exists_nil.
  - rewrite user_step_outcome.
    destruct (decide (Exists (rowable args movies) grp)) as [He|He].
    + rewrite decide_True; [done|]. by left.
    + rewrite IH. destruct (decide (Exists _ groups)) as [Hg|Hg].
      * rewrite decide_True; [done|]. by right.
      * rewrite decide_False; [done|]. intros [?|?]%Exists_cons; done.
Qed.

(** Every run ends at once: with [TypeError] when some user has a positive
    that has metadata, and with an empty frame otherwise. *)
Lemma main_outcome bit_generator fuel args ratings movies cand_map :
  main bit_generator fuel args ratings movies cand_map =
  if decide (Exists (rowable args movies) ratings)
  then Some (Raise TypeError) else Some (Ok ([], 0%nat)).
Proof.
  unfold main. rewrite users_loop_outcome.
  assert (Hiff : Exists (λ ug : Z * list Rating, Exists (rowable args movies) ug.2)
                   (groupby userId ratings) ↔ Exists (rowable args movies) ratings).
  { rewrite !Exists_exists. split.
    - intros ([u g] & [_ ->]%elem_of_groupby & (x & Hx & Hr)%Exists_exists).
      apply list_elem_of_filter in Hx. exists x. tauto.
    - intros (x & Hx & Hr). destruct (groupby_covers userId ratings x Hx) as (g & Hg & Hxg).
      exists (userId x, g). split; [done|]. apply Exists_exists. eauto. }
  destruct (decide (Exists (rowable args movies) ratings)).
  - rewrite decide_True; [done|]. by apply Hiff.
  - rewrite decide_False; [done|]. by rewrite Hiff.
Qed.

(** C2 at a concrete run: one user, one five-star rating of a movie that
    has metadata.  The label-1 row is never built: the call on line 128
    raises [TypeError], whereas [make_row] itself, given its four
    arguments, would return the row with the movie's five features. *)
Lemma first_positive_raises_TypeError :
  main counting_bits 0 args_default one_rating one_movie ∅ = Some (Raise TypeError) ∧
  pos_rows_of one_movie 1 (pos_items_of args_default one_rating) = Raise TypeError ∧
  make_row 1 10 1 (one_movie !! 10) =
    Some (mkRow 1 10 1 (runtime_z meta0) (lang_idx meta0) (popularity meta0)
                (vote_average meta0) (vote_count meta0)).
Proof. repeat split; vm_compute; reflexivity. Qed.

(** ** More about the sampler's inputs and outputs *)

(** X9.  The popularity pool lists every rated movie exactly once and
    nothing else, by non-increasing number of ratings. *)
Theorem pop_items_most_rated_first ratings :
  NoDup (pop_items_of ratings) ∧
  (∀ x, x ∈ pop_items_of ratings ↔ x ∈ movieId <$> ratings) ∧
  StronglySorted (λ a b, (popularity_of ratings b ≤ popularity_of ratings a)%nat)
    (pop_items_of ratings).
Proof.
  split; [apply NoDup_pop_items_of|]. split; [apply elem_of_pop_items_of|].
  unfold pop_items_of, popularity_of.
  eapply StronglySorted_weaken; [|apply stable_sort_StronglySorted].
  - intros a b Hab. by apply bool_decide_eq_true in Hab.
  - intros x y. rewrite !bool_decide_eq_true. lia.
  - intros x y z. rewrite !bool_decide_eq_true. lia.
Qed.

#[global] Instance is_positive_dec args x : Decision (is_positive args x).
Proof. unfold is_positive. apply _. Defined.

(** X10.  The positives of a group are exactly its rows rated at least
    [pos_thresh], each as often as it occurs, by non-decreasing timestamp. *)
Theorem pos_items_by_timestamp args grp :
  pos_items_of args grp ≡ₚ filter (is_positive args) grp ∧
  StronglySorted (λ a b, timestamp a ≤ timestamp b) (pos_items_of args grp).
Proof.
  unfold pos_items_of. split; [apply stable_sort_Permutation|].
  eapply StronglySorted_weaken; [|apply stable_sort_StronglySorted].
  - intros a b Hab. by apply bool_decide_eq_true in Hab.
  - intros x y. rewrite !bool_decide_eq_true. lia.
  - intros x y z. rewrite !bool_decide_eq_true. lia.
Qed.

(** X6.  Whatever the seed, the candidates and the budget: if some row of
    the ratings is a positive whose movie has metadata, [main] raises
    [TypeError] and writes nothing; if no row is, [main] finishes with an
    empty frame and no kept user.  There is no third outcome. *)
Theorem main_stops_at_first_rowable_positive bit_generator fuel args ratings movies cand_map :
  ((∃ x, x ∈ ratings ∧ is_positive args x ∧ movieId x ∈ dom movies) →
     main bit_generator fuel args ratings movies cand_map = Some (Raise TypeError)) ∧
  ((∀ x, x ∈ ratings → is_positive args x → movieId x ∉ dom movies) →
     main bit_generator fuel args ratings movies cand_map = Some (Ok ([], 0%nat))).
Proof.
  rewrite main_outcome. split.
  - intros (x & Hx & Hr). rewrite decide_True; [done|].
    apply Exists_exists. exists x. done.
  - intros Hnone. rewrite decide_False; [done|].
    intros (x & Hx & Hp & Hm)%Exists_exists. by apply (Hnone x).
Qed.

Lemma draws_S pool rng d :
  draws pool rng (S d) = (choice pool rng).1 :: draws pool (advance rng) d.
Proof. done. Qed.

Lemma sample_loop_draw_order fuel pool n seen out rng out' seen' rng' :
  sample_loop fuel pool n seen out rng = Some (out', seen', rng') →
  out' = out ++ take (n - length out)
                  (unique (filter (λ x, x ∉ seen) (draws pool rng (pos rng' - pos rng)))).
Proof.
  revert seen out rng.
  induction fuel as [|fuel IH]; intros seen out rng;
    rewrite sample_loop_unfold; case_decide as Hlt; try done.
  1,3: intros [= <- <- <-]; rewrite Nat.sub_diag; simpl; by rewrite take_nil, app_nil_r.
  case_decide as Hseen; intros Hrun;
    pose proof (sample_loop_result _ _ _ _ _ _ _ _ _ Hrun) as (_ & _ & _ & _ & _ & _ & _ & _ & Hpos);
    apply IH in Hrun as ->; simpl in Hpos;
    replace (pos rng' - pos rng)%nat with (S (pos rng' - pos (advance rng))) by (simpl; lia);
    rewrite draws_S, filter_cons.
  - rewrite decide_False by (intros Hn; by apply Hn). done.
  - rewrite decide_True by done. cbn [unique].
    rewrite <- app_assoc. f_equal. rewrite length_app. simpl.
    replace (n - length out)%nat with (S (n - (length out + 1))) by lia.
    simpl. f_equal. f_equal. rewrite filter_unique. f_equal.
    rewrite list_filter_filter. apply list_filter_iff. set_solver.
Qed.

(** X7.  What [sample_easy_neg] returns is read off the generator's draws:
    the first [n] distinct unseen items among the draws it consumed, in
    draw order; the set it was given has grown by exactly these items, and
    the generator is left on the same stream, past the draws consumed. *)
Theorem easy_negatives_are_first_fresh_draws fuel seen pool n rng out seen' rng' :
  sample_easy_neg fuel seen pool n rng = Some (out, seen', rng') →
  out = take n (unique (filter (λ x, x ∉ seen) (draws pool rng (pos rng' - pos rng)))) ∧
  seen' = list_to_set out ∪ seen ∧
  raw rng' = raw rng ∧ (pos rng ≤ pos rng')%nat.
Proof.
  intros Hrun.
  pose proof (sample_easy_neg_result _ _ _ _ _ _ _ _ Hrun) as (_ & _ & Hseen & _ & Hraw & Hpos).
  split; [|done]. unfold sample_easy_neg in Hrun. case_decide.
  - injection Hrun as <- <- <-. rewrite Nat.sub_diag. simpl. by rewrite take_nil.
  - apply sample_loop_draw_order in Hrun. simpl in Hrun. by rewrite Nat.sub_0_r in Hrun.
Qed.

(** The theorem at the run with pool [1; 2; 3] and movie 1 seen. *)
Lemma easy_negatives_are_first_fresh_draws_witness :
  [2] = take 1 (unique (filter (λ x, x ∉ ({[1]} : gset Z))
                  (draws [1; 2; 3] counting_rng
                     (pos (mkGenerator (λ i, i) 2) - pos counting_rng)))) ∧
  ({[2; 1]} : gset Z) = list_to_set [2] ∪ {[1]} ∧
  raw (mkGenerator (λ i, i) 2) = raw counting_rng ∧
  (pos counting_rng ≤ pos (mkGenerator (λ i, i) 2))%nat.
Proof.
  apply (easy_negatives_are_first_fresh_draws 3 {[1]} [1; 2; 3] 1 counting_rng
           [2] {[2; 1]} (mkGenerator (λ i, i) 2)).
  vm_compute. reflexivity.
Defined.

(** X8.  With a non-empty pool that holds fewer than [n] distinct unseen
    items, [sample_easy_neg] does not return, whatever the generator draws
    and however many iterations it is given. *)
Theorem sample_easy_neg_starves fuel seen pool n rng :
  pool ≠ [] → (size (list_to_set pool ∖ seen : gset Z) < n)%nat →
  sample_easy_neg fuel seen pool n rng = None.
Proof.
  intros Hne Hsize.
  destruct (sample_easy_neg fuel seen pool n rng) as [[[out seen'] rng']|] eqn:Hrun; [|done].
  exfalso. unfold sample_easy_neg in Hrun.
  rewrite decide_False in Hrun.
  2:{ intros [->|Hl]; [lia|]. by destruct pool. }
  apply sample_loop_result in Hrun as (new & -> & Hnd & Hfresh & _ & Hlen & Hpool & _).
  simpl in Hlen. specialize (Hlen ltac:(lia)).
  assert (Hsub : (list_to_set new : gset Z) ⊆ list_to_set pool ∖ seen).
  { intros x Hx%elem_of_list_to_set. apply elem_of_difference. split.
    - apply elem_of_list_to_set. by apply Hpool.
    - by apply Hfresh. }
  apply subseteq_size in Hsub. rewrite size_list_to_set in Hsub by done. lia.
Qed.

(** The theorem at a pool with one unseen item and two requested. *)
Lemma sample_easy_neg_starves_witness :
  sample_easy_neg 100 {[1]} [1; 2; 1] 2 counting_rng = None.
Proof.
  apply sample_easy_neg_starves; [done|]. vm_compute. lia.
Defined.

Lemma sample_easy_neg_length fuel seen pool n rng out seen' rng' :
  sample_easy_neg fuel seen pool n rng = Some (out, seen', rng') →
  (length out ≤ n)%nat.
Proof.
  intros (_ & _ & _ & Hlen & _)%sample_easy_neg_result.
  destruct Hlen as [Hnil|Hn]; [rewrite Hnil; simpl; lia|lia].
Qed.

(** X11.  A user gets at most [hard_neg_count] hard negatives, none at all
    without an entry in the candidate map, and at most [easy_neg_count]
    easy negatives, or one when that count is zero and the fallback draws;
    the fallback never draws when there is a hard negative.  Every
    negative has metadata: sampled items without metadata are dropped, not
    redrawn. *)
Theorem negatives_are_bounded fuel args movies cand_map pool uid seen rng easy rng' :
  easy_neg_of fuel args movies pool seen
    (hard_neg_of args movies cand_map uid seen) rng = Some (easy, rng') →
  (length (hard_neg_of args movies cand_map uid seen) ≤ hard_neg_count args)%nat ∧
  (length easy ≤ easy_neg_count args `max` 1)%nat ∧
  (hard_neg_of args movies cand_map uid seen ≠ [] →
     (length easy ≤ easy_neg_count args)%nat) ∧
  (∀ i, i ∈ hard_neg_of args movies cand_map uid seen ++ easy → i ∈ dom movies) ∧
  (cand_map !! uid = None → hard_neg_of args movies cand_map uid seen = []).
Proof.
  intros Hrun.
  destruct (hard_neg_of_spec args movies cand_map uid seen) as (_ & Hlen & Hhard).
  pose proof (easy_neg_of_spec _ _ _ _ _ _ _ _ _ Hrun) as (_ & Heasy & _).
  split; [done|].
  assert (Hbounds : (length easy ≤ easy_neg_count args `max` 1)%nat ∧
                    (hard_neg_of args movies cand_map uid seen ≠ [] →
                     (length easy ≤ easy_neg_count args)%nat)).
  { unfold easy_neg_of in Hrun.
    destruct (sample_easy_neg fuel seen pool (easy_neg_count args) rng)
      as [[[ids seen1] rng1]|] eqn:H1; [|done].
    apply sample_easy_neg_length in H1.
    pose proof (length_filter (λ i, i ∈ dom movies) ids) as Hf1.
    case_decide as Hboth.
    - destruct (sample_easy_neg fuel seen pool 1 rng1)
        as [[[fb seen2] rng2]|] eqn:H2; [|done].
      apply sample_easy_neg_length in H2.
      pose proof (length_filter (λ i, i ∈ dom movies) fb) as Hf2.
      injection Hrun as <- <-. split; [lia|]. intros Hne. by destruct Hboth.
    - injection Hrun as <- <-. split; lia. }
  destruct Hbounds as [Hb1 Hb2]. split; [done|]. split; [done|]. split.
  - intros i [Hi|Hi]%elem_of_app; [by apply Hhard|by apply Heasy].
  - intros Hnone. unfold hard_neg_of. rewrite Hnone. apply take_nil.
Qed.

(** The theorem at user 1 of the frame with movies 7 and 5. *)
Lemma negatives_are_bounded_witness :
  (length (hard_neg_of args_1_1 movies_7 cands_7 1 (seen_items_of grp_5))
     ≤ hard_neg_count args_1_1)%nat ∧
  (length [7] ≤ easy_neg_count args_1_1 `max` 1)%nat ∧
  (hard_neg_of args_1_1 movies_7 cands_7 1 (seen_items_of grp_5) ≠ [] →
     (length [7] ≤ easy_neg_count args_1_1)%nat) ∧
  (∀ i, i ∈ hard_neg_of args_1_1 movies_7 cands_7 1 (seen_items_of grp_5) ++ [7] →
        i ∈ dom movies_7) ∧
  (cands_7 !! 1 = None →
     hard_neg_of args_1_1 movies_7 cands_7 1 (seen_items_of grp_5) = []).
Proof.
  apply (negatives_are_bounded 1 args_1_1 movies_7 cands_7 (pop_items_of ratings_7_5)
           1 (seen_items_of grp_5) zero_rng [7] (advance zero_rng)).
  vm_compute. reflexivity.
Defined.

(** ** The loop for any behaviour of the calls of [make_row] *)

(** At the call of the function the script defines, the loop is [main]. *)
Lemma pos_rows_with_call_make_row movies uid l :
  pos_rows_with call_make_row movies uid l = pos_rows_of movies uid l.
Proof.
  induction l as [|x l IH]; [done|]. simpl.
  destruct (movies !! movieId x); [done|exact IH].
Qed.

Lemma user_step_with_call_make_row fuel args movies cand_map pool uid grp rng :
  user_step_with call_make_row fuel args movies cand_map pool uid grp rng =
  user_step fuel args movies cand_map pool uid grp rng.
Proof.
  unfold user_step_with, user_step. cbv zeta. by rewrite pos_rows_with_call_make_row.
Qed.

Lemma users_loop_with_call_make_row fuel args movies cand_map pool groups rows kept rng :
  users_loop_with call_make_row fuel args movies cand_map pool groups rows kept rng =
  users_loop fuel args movies cand_map pool groups rows kept rng.
Proof.
  revert rows kept rng. induction groups as [|[uid grp] groups IH]; intros rows kept rng;
    simpl; [done|].
  rewrite user_step_with_call_make_row.
  destruct (user_step _ _ _ _ _ _ _ _) as [[[[|pos_rows neg_rows] rng1]|e]|]; try done;
    apply IH.
Qed.

Lemma main_with_call_make_row bit_generator fuel args ratings movies cand_map :
  main_with call_make_row bit_generator fuel args ratings movies cand_map =
  main bit_generator fuel args ratings movies cand_map.
Proof. apply users_loop_with_call_make_row. Qed.

Lemma call_make_row_as_asked : rows_as_asked call_make_row.
Proof.
  intros uid item lab meta [|a extra] r; [|done]. simpl.
  destruct meta as [m|]; [|done]. by intros [= <-].
Qed.




(** *** The draws of one turn *)






(** *** The rows of one turn *)



(** *** One turn, and the turns of a run *)













(** In that run the turn of user 2 reads on where user 1 stopped: from the
    cursor 3 its draw is movie 3, from a generator started afresh it would
    be movie 4. *)
Lemma second_turn_reads_on :
  user_step_with lenient_call 5 args_turns movies_turns cands_turns
    (pop_items_of ratings_turns) 2 (filter (λ x, userId x = 2) ratings_turns)
    (mkGenerator (counting_bits (seed args_turns)) 3)
    = Some (Ok (Extend [default_row 2 2 1] [row0 2 3 0],
                mkGenerator (counting_bits (seed args_turns)) 4)) ∧
  user_step_with lenient_call 5 args_turns movies_turns cands_turns
    (pop_items_of ratings_turns) 2 (filter (λ x, userId x = 2) ratings_turns)
    (default_rng counting_bits (seed args_turns))
    = Some (Ok (Extend [default_row 2 2 1] [row0 2 4 0],
                mkGenerator (counting_bits (seed args_turns)) 1)).
Proof. split; vm_compute; reflexivity. Qed.



End FeatureFacts.

(** * Properties of [06_train_lgbm.py] *)

Module LgbmFacts.
Import TrainLgbm LgbmSpec.

(** ** The ranking order *)

Lemma insert_sorted_lex x l :
  StronglySorted lex_lt l → Forall (λ y, (x.1 < y.1)%nat) l →
  StronglySorted lex_lt (insert_sorted score_le x l).
Proof.
  induction 1 as [|y l Hsorted IH Hy]; intros Hidx; simpl.
  { repeat constructor. }
  apply Forall_cons in Hidx as [Hxy Hidx].
  destruct (score_le x y) eqn:Hle; unfold score_le in Hle.
  - apply Qle_bool_iff in Hle. constructor; [by constructor|].
    assert (Hx : lex_lt x y).
    { unfold lex_lt. destruct (Qlt_le_dec x.2 y.2); [by left|right].
      split; [by apply Qle_antisym|done]. }
    constructor; [done|].
    rewrite Forall_forall in Hy, Hidx |- *. intros z Hz.
    specialize (Hy z Hz). specialize (Hidx z Hz). unfold lex_lt in *.
    destruct (Qlt_le_dec x.2 z.2); [by left|right].
    split; [|done]. apply Qle_antisym; [|done].
    apply (Qle_trans _ y.2); [done|]. apply Qle_lteq. tauto.
  - assert (Hlt : (y.2 < x.2)%Q).
    { apply Qnot_le_lt. intros ?%Qle_bool_iff. congruence. }
    constructor; [by apply IH|].
    rewrite insert_sorted_Permutation. constructor; [by left|done].
Qed.

Lemma stable_sort_zip_lex s (ps : list Q) :
  StronglySorted lex_lt (stable_sort score_le (zip (seq s (length ps)) ps)).
Proof.
  revert s. induction ps as [|p ps IH]; intros s; simpl; [constructor|].
  apply insert_sorted_lex; [apply IH|].
  rewrite stable_sort_Permutation. apply Forall_forall.
  intros [i q] Hin. apply elem_of_zip_l in Hin. apply elem_of_seq in Hin.
  simpl. lia.
Qed.

Lemma elem_of_zip_seq (ps : list Q) i q :
  (i, q) ∈ zip (seq 0 (length ps)) ps → score ps i = q.
Proof.
  intros (k & Hk)%list_elem_of_lookup_1.
  apply lookup_zip_with_Some in Hk as (i' & q' & [= <- <-] & Hi & Hq).
  apply lookup_seq in Hi as [-> _]. unfold score. by apply nth_lookup_Some.
Qed.

Lemma StronglySorted_reverse {A} (R : A → A → Prop) l :
  StronglySorted R l → StronglySorted (flip R) (reverse l).
Proof.
  induction 1 as [|x l Hs IH Hx]; [constructor|]. rewrite reverse_cons.
  apply StronglySorted_app_2; [|done|repeat constructor].
  intros y z Hy ->%list_elem_of_singleton. unfold flip.
  rewrite Forall_forall in Hx. apply Hx. by apply elem_of_reverse.
Qed.

Lemma StronglySorted_fmap_fst (ps : list Q) (l : list (nat * Q)) :
  (∀ i q, (i, q) ∈ l → score ps i = q) →
  StronglySorted (flip lex_lt) l →
  StronglySorted (ranks_before ps) (l.*1).
Proof.
  intros Hl. induction 1 as [|[i q] l Hs IH Hx]; simpl; [constructor|].
  constructor.
  - apply IH. intros j r ?. apply Hl. by right.
  - rewrite Forall_fmap. rewrite Forall_forall in Hx |- *.
    intros [j r] Hj. specialize (Hx _ Hj). unfold flip, lex_lt in Hx. simpl in *.
    unfold ranks_before. rewrite (Hl i q) by (by left).
    rewrite (Hl j r) by (by right).
    destruct Hx as [?|[? ?]]; [by left|right]. split; [by symmetry|done].
Qed.

Lemma order_of_Permutation y_pred : order_of y_pred ≡ₚ seq 0 (length y_pred).
Proof.
  unfold order_of, argsort.
  rewrite reverse_Permutation, stable_sort_Permutation.
  rewrite fst_zip; [done|]. by rewrite length_seq.
Qed.

Lemma order_of_StronglySorted y_pred :
  StronglySorted (ranks_before y_pred) (order_of y_pred).
Proof.
  unfold order_of, argsort.
  rewrite <- fmap_reverse. apply StronglySorted_fmap_fst.
  - intros i q Hin. rewrite elem_of_reverse, elem_of_stable_sort in Hin.
    by apply elem_of_zip_seq.
  - apply StronglySorted_reverse, (stable_sort_zip_lex 0).
Qed.


(** ** The metrics of a group with one positive, ranked first *)

Lemma nth_one_hot n p j : (p < n)%nat → nth j (one_hot n p) 0 = if decide (j = p) then 1 else 0.
Proof.
  intros Hp. unfold one_hot. rewrite nth_lookup.
  destruct (decide (j = p)) as [->|Hne].
  - rewrite list_lookup_insert_eq; [done|]. by rewrite length_replicate.
  - rewrite list_lookup_insert_ne by done.
    destruct (replicate n 0 !! j) eqn:E; [|done].
    apply lookup_replicate in E as [-> _]. done.
Qed.

Lemma sum_Z_replicate_0 n : sum_Z (replicate n 0) = 0.
Proof. induction n; simpl; [done|]. unfold sum_Z in *. simpl. lia. Qed.

Lemma sum_Z_one_hot n p : (p < n)%nat → sum_Z (one_hot n p) = 1.
Proof.
  revert p. induction n as [|n IH]; intros p Hp; [lia|].
  destruct p as [|p]; unfold one_hot, sum_Z in *; simpl.
  - fold (sum_Z (replicate n 0)). rewrite sum_Z_replicate_0. done.
  - rewrite IH; [done|lia].
Qed.

Lemma int8_one_hot n p : int8 <$> one_hot n p = one_hot n p.
Proof.
  unfold one_hot. revert p. induction n as [|n IH]; intros p; [done|].
  destruct p; simpl.
  - f_equal. clear. induction n; simpl; [done|]. by f_equal.
  - f_equal. apply IH.
Qed.

Lemma insert_sorted_replicate_0_one m :
  insert_sorted Z.leb 1 (replicate m 0) = replicate m 0 ++ [1].
Proof. induction m; simpl; [done|]. by f_equal. Qed.

Lemma stable_sort_cons {A} (le : A → A → bool) x l :
  stable_sort le (x :: l) = insert_sorted le x (stable_sort le l).
Proof. done. Qed.

Lemma stable_sort_replicate_0 m : stable_sort Z.leb (replicate m 0) = replicate m 0.
Proof.
  induction m as [|m IH]; [done|]. cbn [replicate].
  rewrite stable_sort_cons, IH. destruct m; reflexivity.
Qed.

Lemma stable_sort_one_hot n p :
  (p < n)%nat → stable_sort Z.leb (one_hot n p) = replicate (n - 1) 0 ++ [1].
Proof.
  revert p. induction n as [|n IH]; intros p Hp; [lia|].
  unfold one_hot in *. destruct p as [|p]; cbn [replicate list_insert insert];
    rewrite stable_sort_cons.
  - rewrite stable_sort_replicate_0. simpl. rewrite Nat.sub_0_r.
    apply insert_sorted_replicate_0_one.
  - rewrite IH by lia. destruct n as [|n]; [lia|]. simpl. rewrite Nat.sub_0_r.
    destruct n; reflexivity.
Qed.

Lemma log2_2 : log2 (INR 2) = 1%R.
Proof.
  unfold log2. simpl. replace (1 + 1)%R with 2%R by lra.
  apply Rinv_r. pose proof ln_lt_2. lra.
Qed.

Lemma dcg_one_then_zeros m : _dcg (1 :: replicate m 0) = 1%R.
Proof.
  unfold _dcg. simpl. change (INR 2) with (INR 2). 
  assert (H0 : ∀ (f : nat → Z → R) , (∀ i, f i 0 = 0%R) → sum_R (imap f (replicate m 0)) = 0%R).
  { clear. induction m as [|m IH]; intros f Hf; simpl; [done|].
    rewrite Hf, IH; [lra|]. intros i. apply Hf. }
  rewrite H0.
  - pose proof log2_2 as H2. simpl in H2. rewrite H2. lra.
  - intros i. unfold compose. lra.
Qed.

Lemma cumsum_from_replicate_0 a m : cumsum_from a (replicate m 0) = replicate m a.
Proof. induction m as [|m IH]; simpl; [done|]. rewrite Z.add_0_r, IH. done. Qed.

Lemma sum_R_zip_zeros (xs : list R) m :
  sum_R (zip_with Rmult xs (IZR <$> replicate m 0)) = 0%R.
Proof.
  revert m. induction xs as [|x xs IH]; intros [|m]; simpl; try done.
  rewrite IH. lra.
Qed.

Lemma broadcast_same_length f xs ys :
  length xs = length ys → broadcast f xs ys = Ok (zip_with f xs ys).
Proof. intros H. unfold broadcast. by rewrite decide_True. Qed.

Lemma map_at_k_one_then_zeros k' y_true :
  sum_Z y_true = 1 →
  map_at_k (S k') y_true (1 :: replicate k' 0) = Ok 1%R.
Proof.
  intros Hsum. unfold map_at_k.
  assert (Hh : sum_Z (1 :: replicate k' 0) = 1).
  { unfold sum_Z. simpl. fold (sum_Z (replicate k' 0)). rewrite sum_Z_replicate_0. done. }
  destruct (decide (sum_Z (1 :: replicate k' 0) = 0)) as [H0|_]; [lia|].
  unfold cumsum. cbn [cumsum_from]. rewrite cumsum_from_replicate_0.
  rewrite broadcast_same_length.
  2:{ unfold arange1. rewrite !length_fmap, length_seq. simpl. by rewrite length_replicate. }
  cbn [mbind outcome_bind]. rewrite broadcast_same_length.
  2:{ rewrite length_zip_with, !length_fmap. unfold arange1.
      rewrite length_fmap, length_seq. simpl. rewrite !length_replicate. lia. }
  cbn [mbind outcome_bind]. f_equal. rewrite Hsum.
  replace (1 `min` Z.of_nat (S k')) with 1 by lia.
  unfold arange1. rewrite !fmap_cons. cbn [seq]. rewrite fmap_cons.
  cbn [zip_with]. unfold sum_R at 1. cbn [foldr].
  fold (sum_R (zip_with Rmult
     (zip_with Rdiv (IZR <$> replicate k' (0 + 1))
        ((λ i : nat, (INR i + 1)%R) <$> seq 1 k'))
     (IZR <$> replicate k' 0))).
  rewrite (sum_R_zip_zeros _ k'). change (0 + 1) with 1. simpl. lra.
Qed.

Lemma ndcg_at_k_one_hot k' n p :
  (p < n)%nat →
  ndcg_at_k (S k') (one_hot n p) (1 :: replicate k' 0) = 1%R.
Proof.
  intros Hp. unfold ndcg_at_k. rewrite stable_sort_one_hot by done.
  rewrite reverse_app, reverse_singleton, reverse_replicate. simpl.
  rewrite take_replicate, !dcg_one_then_zeros.
  destruct (Rlt_dec 0 1); lra.
Qed.

Lemma take_idx_zeros (y : list Z) (l : list nat) :
  (∀ j, j ∈ l → nth j y 0 = 0) → take_idx y l = replicate (length l) 0.
Proof.
  unfold take_idx. induction l as [|j l IH]; intros H; [done|].
  rewrite fmap_cons. simpl. rewrite H by (by left). f_equal.
  apply IH. intros j' ?. apply H. by right.
Qed.

Lemma order_of_head (y_pred : list Q) p :
  (p < length y_pred)%nat →
  (∀ i, (i < length y_pred)%nat → i ≠ p → (score y_pred i < score y_pred p)%Q) →
  ∃ rest, order_of y_pred = p :: rest ∧ (p ∉ rest) ∧
          S (length rest) = length y_pred ∧ ∀ j, j ∈ rest → (j < length y_pred)%nat.
Proof.
  intros Hp Hmax.
  pose proof (order_of_Permutation y_pred) as Hperm.
  pose proof (order_of_StronglySorted y_pred) as Hsorted.
  assert (Hin : ∀ j, j ∈ order_of y_pred ↔ (j < length y_pred)%nat).
  { intros j. rewrite Hperm, elem_of_seq. lia. }
  assert (Hnd : NoDup (order_of y_pred)) by (rewrite Hperm; apply NoDup_seq).
  assert (Hlen : length (order_of y_pred) = length y_pred)
    by (by rewrite Hperm, length_seq).
  destruct (order_of y_pred) as [|h rest]; [simpl in Hlen; lia|].
  apply NoDup_cons in Hnd as [Hh Hnd].
  apply StronglySorted_inv in Hsorted as [_ Hall].
  assert (h = p) as ->.
  { destruct (decide (h = p)) as [|Hne]; [done|exfalso].
    assert (Hpr : p ∈ rest).
    { assert (p ∈ h :: rest) as [?|?]%elem_of_cons by (by apply Hin); done. }
    rewrite Forall_forall in Hall. specialize (Hall p Hpr).
    assert (Hlt : (score y_pred h < score y_pred p)%Q).
    { apply Hmax; [|done]. apply Hin. by left. }
    destruct Hall as [?|[Heq _]]; [|rewrite Heq in Hlt];
      eapply Qlt_irrefl, Qlt_trans; eauto. }
  exists rest. split; [done|]. split; [done|]. split; [by simpl in Hlen|].
  intros j Hj. apply Hin. by right.
Qed.

Lemma group_metrics_single_top k g p :
  (1 ≤ k ≤ length g)%nat → (p < length g)%nat →
  label <$> g = one_hot (length g) p →
  (∀ i, (i < length g)%nat → i ≠ p →
        (score (pred <$> g) i < score (pred <$> g) p)%Q) →
  group_metrics k g = Ok (1%R, 1%R).
Proof.
  intros Hk Hp Hlab Hmax. unfold group_metrics.
  assert (Hy : (λ x, int8 (label x)) <$> g = one_hot (length g) p).
  { rewrite (list_fmap_compose label int8), Hlab. apply int8_one_hot. }
  rewrite Hy, sum_Z_one_hot by done. rewrite decide_False by lia.
  destruct (order_of_head (pred <$> g) p) as (rest & -> & Hnot & Hlen & Hrest);
    rewrite ?length_fmap; try done.
  rewrite length_fmap in Hlen, Hrest.
  destruct k as [|k']; [lia|]. cbn [take].
  assert (Hhits : take_idx (one_hot (length g) p) (p :: take k' rest)
                  = 1 :: replicate k' 0).
  { change (take_idx (one_hot (length g) p) (p :: take k' rest))
      with (nth p (one_hot (length g) p) 0
              :: take_idx (one_hot (length g) p) (take k' rest)).
    rewrite nth_one_hot, decide_True by done. f_equal.
    rewrite (take_idx_zeros (one_hot (length g) p) (take k' rest)).
    - rewrite length_take. f_equal. lia.
    - intros j Hj. rewrite nth_one_hot by done. rewrite decide_False; [done|].
      intros ->. apply Hnot. eapply elem_of_take in Hj as (i & Hi & _).
      by eapply list_elem_of_lookup_2. }
  rewrite Hhits, map_at_k_one_then_zeros by (by apply sum_Z_one_hot).
  cbn [mbind outcome_bind]. by rewrite ndcg_at_k_one_hot.
Qed.

(** C1 at the scenario group of the specification: three rows, the only
    positive scored highest, [k = 10].  The division of the three running
    sums by [arange(10) + 1] does not broadcast and [eval_metrics] raises
    [ValueError]; on a group of one row the shapes do broadcast and MAP@10
    comes out as 1 + 1/2 + ... + 1/10, above 2. *)
Lemma small_group_breaks_map :
  eval_metrics group3 10 = Raise ValueError ∧
  ∃ m, group_metrics 10 group1 = Ok (m, 1%R) ∧ (2 < m)%R.
Proof.
  split; [vm_compute; reflexivity|].
  eexists. split.
  - unfold group_metrics.
    assert (Hn : ndcg_at_k 10 [1] [1] = 1%R).
    { apply (ndcg_at_k_one_hot 0 1 0). lia. }
    cbv -[Rdiv Rmult Rplus IZR INR ndcg_at_k]. rewrite Hn. reflexivity.
  - simpl. lra.
Qed.

(** ** When the metrics raise *)

Lemma broadcast_outcome f xs ys :
  broadcast f xs ys =
  if decide (length xs = length ys ∨ length xs = 1%nat ∨ length ys = 1%nat)
  then broadcast f xs ys else Raise ValueError.
Proof.
  case_decide as H; [done|]. unfold broadcast.
  rewrite decide_False by tauto.
  destruct xs as [|x [|x' xs]], ys as [|y [|y' ys]]; simpl in *; try done; lia.
Qed.

Lemma broadcast_Ok_length f xs ys zs :
  broadcast f xs ys = Ok zs →
  length zs = if decide (length xs = 1%nat) then length ys else length xs.
Proof.
  unfold broadcast. case_decide as H.
  - intros [= <-]. rewrite length_zip_with. case_decide; lia.
  - destruct xs as [|x [|x' xs]], ys as [|y [|y' ys]]; simpl in *;
      intros Heq; try discriminate; injection Heq as <-;
      rewrite ?length_fmap; simpl; try case_decide; simpl; try lia;
      by rewrite (length_fmap _).
Qed.

Lemma broadcast_is_Ok f xs ys :
  length xs = length ys ∨ length xs = 1%nat ∨ length ys = 1%nat →
  ∃ zs, broadcast f xs ys = Ok zs.
Proof.
  intros H. unfold broadcast. case_decide; [eauto|].
  destruct xs as [|x [|x' xs]], ys as [|y [|y' ys]]; simpl in *; eauto; lia.
Qed.

Lemma length_cumsum_from acc l : length (cumsum_from acc l) = length l.
Proof. revert acc. induction l; intros acc; simpl; [done|]. by rewrite IHl. Qed.

Lemma length_arange1 k : length (arange1 k) = k.
Proof. unfold arange1. by rewrite length_fmap, length_seq. Qed.

Lemma length_take_idx y idx : length (take_idx y idx) = length idx.
Proof. unfold take_idx. by rewrite length_fmap. Qed.

Lemma length_order_of y_pred : length (order_of y_pred) = length y_pred.
Proof. by rewrite order_of_Permutation, length_seq. Qed.

Lemma map_at_k_outcome k y_true hits :
  (sum_Z hits ≠ 0 ∧ length hits ≠ k ∧ length hits ≠ 1%nat ∧ k ≠ 1%nat →
     map_at_k k y_true hits = Raise ValueError) ∧
  (¬ (sum_Z hits ≠ 0 ∧ length hits ≠ k ∧ length hits ≠ 1%nat ∧ k ≠ 1%nat) →
     ∃ ap, map_at_k k y_true hits = Ok ap).
Proof.
  unfold map_at_k. split.
  - intros (Hs & Hk & H1 & Hk1). rewrite decide_False by done.
    rewrite broadcast_outcome, decide_False; [done|].
    unfold cumsum. rewrite !length_fmap, length_cumsum_from, length_arange1. lia.
  - intros Hnot. case_decide as Hs; [eauto|].
    destruct (broadcast_is_Ok Rdiv (IZR <$> cumsum hits) (arange1 k)) as [zs Hzs].
    { unfold cumsum. rewrite !length_fmap, length_cumsum_from, length_arange1.
      destruct (decide (length hits = k)); [by left|].
      destruct (decide (length hits = 1%nat)); [tauto|].
      destruct (decide (k = 1%nat)); tauto. }
    rewrite Hzs. simpl. pose proof (broadcast_Ok_length _ _ _ _ Hzs) as Hlen.
    unfold cumsum in Hlen. rewrite !length_fmap, length_cumsum_from in Hlen.
    destruct (broadcast_is_Ok Rmult zs (IZR <$> hits)) as [ws Hws].
    { rewrite length_fmap, Hlen. case_decide; [by right; right|by left]. }
    rewrite Hws. simpl. eauto.
Qed.

Lemma take_idx_seq y : take_idx y (seq 0 (length y)) = y.
Proof.
  unfold take_idx. apply list_eq. intros i. rewrite list_lookup_fmap.
  destruct (decide (i < length y)%nat) as [Hlt|Hge].
  - rewrite lookup_seq_lt by done. simpl.
    destruct (lookup_lt_is_Some_2 y i Hlt) as [v Hv].
    by rewrite Hv, (nth_lookup_Some _ _ _ _ Hv).
  - rewrite lookup_seq_ge, lookup_ge_None_2 by lia. done.
Qed.

Lemma sum_Z_app l1 l2 : sum_Z (l1 ++ l2) = sum_Z l1 + sum_Z l2.
Proof. unfold sum_Z. induction l1; simpl; lia. Qed.

Lemma sum_Z_Permutation l1 l2 : l1 ≡ₚ l2 → sum_Z l1 = sum_Z l2.
Proof. unfold sum_Z. induction 1; simpl; lia. Qed.

Lemma sum_Z_take_idx_order y y_pred :
  length y_pred = length y → sum_Z (take_idx y (order_of y_pred)) = sum_Z y.
Proof.
  intros Hlen. rewrite <- (take_idx_seq y) at 2. apply sum_Z_Permutation.
  unfold take_idx. apply fmap_Permutation. by rewrite order_of_Permutation, Hlen.
Qed.

(** One group: [ValueError] exactly for a group of at least two and fewer
    than [k] rows whose labels do not sum to zero. *)
Theorem group_metrics_raises_iff k g :
  (group_metrics k g = Raise ValueError ↔
     sum_Z ((λ x, int8 (label x)) <$> g) ≠ 0 ∧ (2 ≤ length g < k)%nat) ∧
  (∀ e, group_metrics k g = Raise e → e = ValueError).
Proof.
  unfold group_metrics.
  set (y := (λ x, int8 (label x)) <$> g).
  set (hits := take_idx y (take k (order_of (pred <$> g)))).
  assert (Hy : length y = length g) by (unfold y; by rewrite length_fmap).
  assert (Hh : length hits = (k `min` length g)%nat).
  { unfold hits. by rewrite length_take_idx, length_take, length_order_of, length_fmap. }
  destruct (map_at_k_outcome k y hits) as [Hraise Hok].
  case_decide as Hsum.
  { split; [|done]. split; [done|]. tauto. }
  destruct (decide (sum_Z hits ≠ 0 ∧ length hits ≠ k ∧ length hits ≠ 1%nat ∧ k ≠ 1%nat))
    as [Hc|Hc].
  - rewrite (Hraise Hc). simpl. split; [|by intros e [= <-]].
    split; [|done]. intros _. split; [done|].
    destruct Hc as (Hs & ? & ? & ?).
    assert (length g ≠ 0%nat); [|lia].
    intros Hg0. rewrite Hg0, Nat.min_0_r in Hh. by destruct hits.
  - destruct (Hok Hc) as [ap ->]. simpl. split; [|done]. split; [done|].
    intros [_ Hlen]. exfalso. apply Hc.
    assert (Htake : take k (order_of (pred <$> g)) = order_of (pred <$> g)).
    { apply take_ge. rewrite length_order_of, length_fmap. lia. }
    split; [|lia]. unfold hits. rewrite Htake, sum_Z_take_idx_order; [done|].
    by rewrite length_fmap.
Qed.

Lemma mapM_out_raises_iff {A B} (f : A → outcome B) l :
  (∀ x e, f x = Raise e → e = ValueError) →
  (mapM_out f l = Raise ValueError ↔ ∃ x, x ∈ l ∧ f x = Raise ValueError) ∧
  (∀ e, mapM_out f l = Raise e → e = ValueError).
Proof.
  intros Hf. induction l as [|x l [IH1 IH2]]; simpl.
  { split; [|done]. split; [done|]. intros (x & Hx & _). by apply elem_of_nil in Hx. }
  destruct (f x) as [b|e] eqn:Hx; simpl.
  - destruct (mapM_out f l) as [bs|e'] eqn:Hl; simpl.
    + split; [|done]. split; [done|].
      intros (x' & [->|Hin]%elem_of_cons & Hr); [congruence|].
      assert (Ok bs = Raise ValueError :> outcome (list B)); [|done]. apply IH1. eauto.
    + pose proof (IH2 e' eq_refl) as ->. split; [|by intros e [= <-]]. split; [|done].
      intros _. destruct IH1 as [IH1 _]. destruct (IH1 eq_refl) as (x' & ? & ?).
      exists x'. split; [by right|done].
  - pose proof (Hf x e Hx) as ->. split; [|by intros e [= <-]]. split; [|done].
    intros _. exists x. split; [by left|done].
Qed.

(** When [eval_metrics] raises, group by group. *)
Lemma eval_metrics_raises df_pred k :
  (eval_metrics df_pred k = Raise ValueError ↔
     ∃ u, u ∈ userId <$> df_pred ∧
          sum_Z ((λ x, int8 (label x)) <$> filter (λ x, userId x = u) df_pred) ≠ 0 ∧
          (2 ≤ length (filter (λ x, userId x = u) df_pred) < k)%nat) ∧
  (∀ e, eval_metrics df_pred k = Raise e → e = ValueError).
Proof.
  unfold eval_metrics.
  destruct (mapM_out_raises_iff (λ ug : Z * list PredRow, group_metrics k ug.2)
              (groupby userId df_pred)) as [Hiff Honly].
  { intros ug e. apply group_metrics_raises_iff. }
  destruct (mapM_out _ (groupby userId df_pred)) as [scores|e] eqn:Hm; simpl.
  - split; [|done]. split; [done|].
    intros (u & Hu & Hs & Hl).
    assert (Ok scores = Raise ValueError :> outcome (list (R * R))); [|done].
    apply Hiff. exists (u, filter (λ x, userId x = u) df_pred). split.
    + by apply elem_of_groupby.
    + by apply group_metrics_raises_iff.
  - pose proof (Honly e eq_refl) as ->. split; [|by intros e [= <-]]. split; [|done].
    intros _. destruct Hiff as [Hiff _].
    destruct (Hiff eq_refl) as ([u g] & [Hu ->]%elem_of_groupby & Hr).
    destruct (group_metrics_raises_iff k (filter (λ x, userId x = u) df_pred)) as [[H1 _] _].
    simpl in Hr. apply H1 in Hr. eauto.
Qed.

(** X12.  [eval_metrics] raises exactly when some user has at least two
    and fewer than [k] rows and labels that do not sum to zero; what it
    raises is [ValueError] (the shapes of line 102), never anything else.
    Users with one row, with at least [k] rows or without a positive never
    make it raise. *)
Theorem eval_metrics_raises_iff df_pred k :
  (eval_metrics df_pred k = Raise ValueError ↔
     ∃ u, u ∈ userId <$> df_pred ∧
          sum_Z ((λ x, int8 (label x)) <$> filter (λ x, userId x = u) df_pred) ≠ 0 ∧
          (2 ≤ length (filter (λ x, userId x = u) df_pred) < k)%nat) ∧
  (∀ e, eval_metrics df_pred k = Raise e → e = ValueError).
Proof. apply eval_metrics_raises. Qed.

(** ** The top k *)

Lemma ranks_before_score_le y_pred i j :
  ranks_before y_pred i j → (score y_pred j <= score y_pred i)%Q.
Proof.
  intros [Hlt|[Heq _]]; [by apply Qlt_le_weak|]. rewrite Heq. apply Qle_refl.
Qed.

(** ** The ranking under any order of ties *)




(** X13.  The top k are [min k n] distinct rows of the group, by
    non-increasing score, and no row left out scores higher than a row
    taken. *)
Theorem topk_holds_the_highest_scores y_pred k :
  length (take k (order_of y_pred)) = (k `min` length y_pred)%nat ∧
  NoDup (take k (order_of y_pred)) ∧
  (∀ i, i ∈ take k (order_of y_pred) → (i < length y_pred)%nat) ∧
  (∀ i j, i ∈ take k (order_of y_pred) → j ∈ drop k (order_of y_pred) →
          (score y_pred j <= score y_pred i)%Q) ∧
  StronglySorted (λ i j, (score y_pred j <= score y_pred i)%Q) (take k (order_of y_pred)).
Proof.
  pose proof (order_of_Permutation y_pred) as Hperm.
  pose proof (order_of_StronglySorted y_pred) as Hsorted.
  assert (Hnd : NoDup (order_of y_pred)) by (rewrite Hperm; apply NoDup_seq).
  rewrite <- (take_drop k (order_of y_pred)) in Hsorted, Hnd.
  split; [by rewrite length_take, length_order_of|].
  split; [by apply NoDup_app in Hnd as [? _]|].
  split; [|split].
  - intros i Hi. assert (Hin : i ∈ order_of y_pred).
    { rewrite <- (take_drop k). apply elem_of_app. by left. }
    rewrite Hperm in Hin. apply elem_of_seq in Hin. lia.
  - intros i j Hi Hj. apply ranks_before_score_le.
    by apply (StronglySorted_app_1_elem_of _ _ _ _ _ Hsorted).
  - apply StronglySorted_app_1_l in Hsorted.
    eapply StronglySorted_weaken; [|done]. apply ranks_before_score_le.
Qed.

(** ** Bounds on the metrics *)

Lemma binary_cons x l : binary (x :: l) ↔ (x = 0 ∨ x = 1) ∧ binary l.
Proof.
  unfold binary. split.
  - intros H. split; [apply H; by left|]. intros y ?. apply H. by right.
  - intros [Hx Hl] y [->|?]%elem_of_cons; auto.
Qed.

Lemma binary_sum_bounds l : binary l → 0 ≤ sum_Z l ≤ Z.of_nat (length l).
Proof.
  induction l as [|x l IH]; [unfold sum_Z; simpl; lia|].
  intros [Hx Hl]%binary_cons. specialize (IH Hl).
  unfold sum_Z in *. simpl. destruct Hx as [->| ->]; lia.
Qed.

Lemma binary_int8 l : binary l → int8 <$> l = l.
Proof.
  induction l as [|x l IH]; [done|]. intros [Hx Hl]%binary_cons.
  rewrite fmap_cons, IH by done. f_equal. destruct Hx as [->| ->]; reflexivity.
Qed.

Lemma binary_take_idx y idx : binary y → binary (take_idx y idx).
Proof.
  intros Hy x (i & -> & _)%list_elem_of_fmap. rewrite nth_lookup.
  destruct (y !! i) as [v|] eqn:Hv; simpl; [|by left].
  apply Hy. by eapply list_elem_of_lookup_2.
Qed.

Lemma ln_2_pos : (0 < ln 2)%R.
Proof. rewrite <- ln_1. apply ln_increasing; lra. Qed.

Lemma INR_ge_2 i : (2 <= INR (i + 2))%R.
Proof. rewrite plus_INR. simpl. pose proof (pos_INR i). lra. Qed.

Lemma disc_ge_1 i : (1 <= disc i)%R.
Proof.
  unfold disc, log2. pose proof ln_2_pos. pose proof (INR_ge_2 i).
  apply (Rmult_le_reg_r (ln 2)); [done|].
  unfold Rdiv. rewrite Rmult_assoc, Rinv_l, Rmult_1_r, Rmult_1_l by lra.
  destruct (Req_dec (INR (i + 2)) 2) as [->|]; [lra|].
  apply Rlt_le, ln_increasing; lra.
Qed.

Lemma disc_mono i j : (i ≤ j)%nat → (disc i <= disc j)%R.
Proof.
  intros Hij. unfold disc, log2. pose proof ln_2_pos. pose proof (INR_ge_2 i).
  apply Rmult_le_compat_r; [apply Rlt_le, Rinv_0_lt_compat; lra|].
  assert (INR (i + 2) <= INR (j + 2))%R as [Hlt | Heq] by (apply le_INR; lia); [|rewrite Heq; lra].
  apply Rlt_le, ln_increasing; lra.
Qed.

Lemma dcg_from_0 rels : _dcg rels = dcg_from 0 rels.
Proof. done. Qed.

Lemma dcg_from_cons s r rels :
  dcg_from s (r :: rels) = (IZR r / disc s + dcg_from (S s) rels)%R.
Proof.
  unfold dcg_from. simpl. rewrite Nat.add_0_r. f_equal. f_equal.
  apply imap_ext. intros i x _. simpl. by rewrite Nat.add_succ_r.
Qed.

Lemma dcg_from_nil s : dcg_from s [] = 0%R.
Proof. done. Qed.

Lemma dcg_from_zeros s m : dcg_from s (replicate m 0%Z) = 0%R.
Proof.
  revert s. induction m as [|m IH]; intros s; [done|]. simpl.
  rewrite dcg_from_cons, IH. pose proof (disc_ge_1 s). unfold Rdiv. lra.
Qed.

Lemma dcg_from_ones_nonneg s m : (0 <= dcg_from s (replicate m 1%Z))%R.
Proof.
  revert s. induction m as [|m IH]; intros s; [rewrite dcg_from_nil; lra|]. simpl.
  rewrite dcg_from_cons. specialize (IH (S s)). pose proof (disc_ge_1 s).
  assert (0 < 1 / disc s)%R; [|lra]. apply Rdiv_lt_0_compat; lra.
Qed.

Lemma dcg_from_ones_shift s m :
  (dcg_from (S s) (replicate m 1%Z) <= dcg_from s (replicate m 1%Z))%R.
Proof.
  revert s. induction m as [|m IH]; intros s; [rewrite !dcg_from_nil; lra|]. simpl.
  rewrite !dcg_from_cons. specialize (IH (S s)).
  pose proof (disc_ge_1 s). pose proof (disc_mono s (S s) ltac:(lia)).
  assert (1 / disc (S s) <= 1 / disc s)%R; [|lra].
  unfold Rdiv. rewrite !Rmult_1_l. apply Rinv_le_contravar; lra.
Qed.

Lemma dcg_from_ones_mono s a b :
  (a ≤ b)%nat → (dcg_from s (replicate a 1%Z) <= dcg_from s (replicate b 1%Z))%R.
Proof.
  revert s b. induction a as [|a IH]; intros s b Hab.
  - rewrite dcg_from_nil. apply dcg_from_ones_nonneg.
  - destruct b as [|b]; [lia|]. simpl. rewrite !dcg_from_cons.
    specialize (IH (S s) b ltac:(lia)). lra.
Qed.

Lemma dcg_from_ones_zeros s a b :
  dcg_from s (replicate a 1%Z ++ replicate b 0%Z) = dcg_from s (replicate a 1%Z).
Proof.
  revert s. induction a as [|a IH]; intros s; simpl.
  - apply dcg_from_zeros.
  - by rewrite !dcg_from_cons, IH.
Qed.

Lemma dcg_from_binary_le s l :
  binary l → (0 <= dcg_from s l <= dcg_from s (replicate (Z.to_nat (sum_Z l)) 1%Z))%R.
Proof.
  revert s. induction l as [|x l IH]; intros s.
  { intros _. rewrite dcg_from_nil. simpl. rewrite dcg_from_nil. lra. }
  intros [Hx Hl]%binary_cons. pose proof (binary_sum_bounds l Hl) as Hb.
  rewrite dcg_from_cons. specialize (IH (S s) Hl). pose proof (disc_ge_1 s).
  destruct Hx as [->| ->].
  - replace (sum_Z (0 :: l)) with (sum_Z l) by (unfold sum_Z; simpl; lia).
    pose proof (dcg_from_ones_shift s (Z.to_nat (sum_Z l))).
    unfold Rdiv. lra.
  - replace (Z.to_nat (sum_Z (1 :: l))) with (S (Z.to_nat (sum_Z l)))
      by (unfold sum_Z in *; simpl; lia).
    simpl. rewrite dcg_from_cons.
    assert (0 < 1 / disc s)%R by (apply Rdiv_lt_0_compat; lra). lra.
Qed.

(** Sorting a list of zeros and ones. *)
Lemma insert_sorted_0 a b :
  insert_sorted Z.leb 0 (replicate a 0 ++ replicate b 1) = replicate (S a) 0 ++ replicate b 1.
Proof. destruct a; destruct b; reflexivity. Qed.

Lemma insert_sorted_1 a b :
  insert_sorted Z.leb 1 (replicate a 0 ++ replicate b 1) = replicate a 0 ++ replicate (S b) 1.
Proof.
  induction a as [|a IH]; simpl; [by destruct b|]. by rewrite IH.
Qed.

Lemma stable_sort_binary l :
  binary l →
  stable_sort Z.leb l =
  replicate (length l - Z.to_nat (sum_Z l)) 0 ++ replicate (Z.to_nat (sum_Z l)) 1.
Proof.
  induction l as [|x l IH]; [done|].
  intros [Hx Hl]%binary_cons. pose proof (binary_sum_bounds l Hl) as Hb.
  rewrite stable_sort_cons, IH by done. destruct Hx as [->| ->].
  - rewrite insert_sorted_0.
    replace (sum_Z (0 :: l)) with (sum_Z l) by (unfold sum_Z; simpl; lia).
    f_equal. f_equal. simpl. lia.
  - rewrite insert_sorted_1.
    replace (Z.to_nat (sum_Z (1 :: l))) with (S (Z.to_nat (sum_Z l)))
      by (unfold sum_Z in *; simpl; lia).
    done.
Qed.

Lemma ideal_topk_binary k y :
  binary y →
  ∃ b, take k (reverse (stable_sort Z.leb y)) =
       replicate (k `min` Z.to_nat (sum_Z y)) 1 ++ replicate b 0.
Proof.
  intros Hy. rewrite stable_sort_binary by done.
  rewrite reverse_app, !reverse_replicate, take_app, !take_replicate, length_replicate.
  eauto.
Qed.

Lemma sum_Z_take_idx_le y idx k :
  binary y → idx ≡ₚ seq 0 (length y) →
  sum_Z (take_idx y (take k idx)) ≤ sum_Z y.
Proof.
  intros Hy Hperm.
  assert (Hall : sum_Z (take_idx y idx) = sum_Z y).
  { trans (sum_Z (take_idx y (seq 0 (length y)))); [|by rewrite take_idx_seq].
    apply sum_Z_Permutation. unfold take_idx. by apply fmap_Permutation. }
  rewrite <- Hall.
  assert (Hsplit : take_idx y idx = take_idx y (take k idx) ++ take_idx y (drop k idx)).
  { unfold take_idx. by rewrite <- fmap_app, take_drop. }
  rewrite Hsplit, sum_Z_app.
  pose proof (binary_sum_bounds _ (binary_take_idx y (drop k idx) Hy)) as Hd.
  lia.
Qed.

Lemma Rdiv_unit_interval a b : (0 <= a <= b)%R → (0 < b)%R → (0 <= a / b <= 1)%R.
Proof.
  intros [Ha Hab] Hb. pose proof (Rinv_0_lt_compat b Hb) as Hi. unfold Rdiv. split.
  - apply Rmult_le_pos; lra.
  - rewrite <- (Rinv_r b) by lra. apply Rmult_le_compat_r; lra.
Qed.

Lemma ndcg_at_k_bounds k y hits :
  binary y → binary hits → (length hits ≤ k)%nat → sum_Z hits ≤ sum_Z y →
  (0 <= ndcg_at_k k y hits <= 1)%R.
Proof.
  intros Hy Hh Hlen Hsum. unfold ndcg_at_k.
  destruct (ideal_topk_binary k y Hy) as [b ->].
  rewrite !dcg_from_0, dcg_from_ones_zeros.
  pose proof (dcg_from_binary_le 0 hits Hh) as [H0 H1].
  pose proof (binary_sum_bounds hits Hh) as Hb.
  pose proof (dcg_from_ones_mono 0 (Z.to_nat (sum_Z hits)) (k `min` Z.to_nat (sum_Z y))
                ltac:(lia)) as Hm.
  destruct (Rlt_dec _ _) as [Hpos|_]; [|lra].
  apply Rdiv_unit_interval; [|done]. change (_dcg hits) with (dcg_from 0 hits). lra.
Qed.

(** The NDCG@k of one group with labels 0 and 1. *)
Lemma group_ndcg_bounds k g ap nd :
  (∀ x, x ∈ g → label x = 0 ∨ label x = 1) →
  group_metrics k g = Ok (ap, nd) →
  (0 <= nd <= 1)%R.
Proof.
  intros Hlab. unfold group_metrics.
  assert (Hbin : binary (label <$> g)).
  { intros x (r & -> & Hr)%list_elem_of_fmap. by apply Hlab. }
  assert (Hy : (λ x, int8 (label x)) <$> g = label <$> g).
  { rewrite (list_fmap_compose label int8). by apply binary_int8. }
  rewrite Hy. case_decide; [intros [= <- <-]; lra|].
  destruct (map_at_k _ _ _) as [ap'|e]; simpl; [|done].
  intros [= <- <-]. apply ndcg_at_k_bounds.
  - done.
  - by apply binary_take_idx.
  - rewrite length_take_idx, length_take. lia.
  - apply sum_Z_take_idx_le; [done|].
    rewrite order_of_Permutation. by rewrite !length_fmap.
Qed.

(** X14.  For labels 0 and 1, the NDCG@k of a group, whenever the group is
    scored at all, lies between 0 and 1, whatever the predicted scores and
    whatever [k]. *)
Theorem ndcg_between_0_and_1 k g ap nd :
  (∀ x, x ∈ g → label x = 0 ∨ label x = 1) →
  group_metrics k g = Ok (ap, nd) →
  (0 <= nd <= 1)%R.
Proof. apply group_ndcg_bounds. Qed.

Lemma weighted_precision_bounds (acc : Z) (s : nat) hits :
  binary hits → 0 ≤ acc ≤ Z.of_nat s →
  (0 <= sum_R (zip_with Rmult
                 (zip_with Rdiv (IZR <$> cumsum_from acc hits)
                    ((λ i, INR i + 1) <$> seq s (length hits)))
                 (IZR <$> hits))
     <= IZR (sum_Z hits))%R.
Proof.
  revert acc s. induction hits as [|x hits IH]; intros acc s.
  { intros _ _. unfold sum_Z. simpl. lra. }
  intros [Hx Hh]%binary_cons Hacc.
  cbn [cumsum_from length seq]. rewrite !fmap_cons. cbn [zip_with].
  unfold sum_R. cbn [foldr].
  change (foldr Rplus 0%R ?l) with (sum_R l).
  replace (sum_Z (x :: hits)) with (x + sum_Z hits) by (unfold sum_Z; simpl; lia).
  assert (Hs : (IZR acc <= INR s)%R).
  { rewrite INR_IZR_INZ. apply IZR_le. lia. }
  assert (Hacc0 : (0 <= IZR acc)%R) by (apply IZR_le; lia).
  destruct Hx as [->| ->].
  - specialize (IH acc (S s) Hh ltac:(lia)).
    rewrite Z.add_0_r, Z.add_0_l, Rmult_0_r. lra.
  - specialize (IH (acc + 1) (S s) Hh ltac:(lia)).
    assert (0 <= IZR (acc + 1) / (INR s + 1) <= 1)%R.
    { apply Rdiv_unit_interval; [|lra]. rewrite plus_IZR. lra. }
    rewrite Rmult_1_r, (plus_IZR 1). lra.
Qed.

(** The MAP@k of one group with labels 0 and 1 and at least [k] rows. *)
Lemma group_map_bounds k g ap nd :
  (∀ x, x ∈ g → label x = 0 ∨ label x = 1) →
  (k ≤ length g)%nat →
  group_metrics k g = Ok (ap, nd) →
  (0 <= ap <= 1)%R.
Proof.
  intros Hlab Hk. unfold group_metrics.
  assert (Hbin : binary (label <$> g)).
  { intros x (r & -> & Hr)%list_elem_of_fmap. by apply Hlab. }
  assert (Hy : (λ x, int8 (label x)) <$> g = label <$> g).
  { rewrite (list_fmap_compose label int8). by apply binary_int8. }
  rewrite Hy. case_decide; [intros [= <- <-]; lra|].
  set (hits := take_idx (label <$> g) (take k (order_of (pred <$> g)))).
  assert (Hhb : binary hits) by (by apply binary_take_idx).
  assert (Hhl : length hits = k).
  { unfold hits. rewrite length_take_idx, length_take, length_order_of, length_fmap. lia. }
  assert (Hhs : sum_Z hits ≤ sum_Z (label <$> g)).
  { apply sum_Z_take_idx_le; [done|]. rewrite order_of_Permutation. by rewrite !length_fmap. }
  pose proof (binary_sum_bounds hits Hhb) as Hb.
  unfold map_at_k. case_decide as Hs; simpl; [intros [= <- <-]; lra|].
  rewrite broadcast_same_length.
  2:{ unfold cumsum. by rewrite !length_fmap, length_cumsum_from, length_arange1. }
  simpl. rewrite broadcast_same_length.
  2:{ unfold cumsum. rewrite length_zip_with, !length_fmap, length_cumsum_from, length_arange1.
      lia. }
  simpl. intros [= <- <-].
  pose proof (weighted_precision_bounds 0 0 hits Hhb ltac:(lia)) as Hw.
  rewrite Hhl in Hw. unfold cumsum, arange1.
  apply Rdiv_unit_interval.
  - split; [lra|]. etrans; [apply Hw|]. apply IZR_le. lia.
  - apply IZR_lt. lia.
Qed.

(** X15.  For labels 0 and 1 and a group of at least [k] rows, the MAP@k
    of the group lies between 0 and 1.  (A group of one row and [k > 1]
    can exceed 1: the precisions are then stretched over [k] ranks.) *)
Theorem map_between_0_and_1 k g ap nd :
  (∀ x, x ∈ g → label x = 0 ∨ label x = 1) →
  (k ≤ length g)%nat →
  group_metrics k g = Ok (ap, nd) →
  (0 <= ap <= 1)%R.
Proof. apply group_map_bounds. Qed.

(** ** [load_split] *)

Section LoadSplitFacts.
Context {A : Type} (uid : A → Z) (lab : A → Z).

Local Abbreviation mixed := (LgbmSpec.mixed uid lab).

Lemma sum_Z_cons x l : sum_Z (x :: l) = x + sum_Z l.
Proof. done. Qed.

Lemma sum_Z_fmap_add {B} (f g : B → Z) (l : list B) :
  sum_Z ((λ x, f x + g x) <$> l) = sum_Z (f <$> l) + sum_Z (g <$> l).
Proof.
  induction l as [|x l IH]; [done|]. rewrite !fmap_cons, !sum_Z_cons, IH. lia.
Qed.

Lemma sum_Z_indicator (v : Z) (keys : list Z) :
  sum_Z ((λ u, if decide (v = u) then 1 else 0) <$> keys) = Z.of_nat (count_key v keys).
Proof.
  unfold count_key. induction keys as [|k keys IH]; [done|].
  rewrite fmap_cons, sum_Z_cons, filter_cons, IH. destruct (decide (v = k)) as [->|Hne].
  - rewrite decide_True by done. simpl. lia.
  - rewrite decide_False by (intros ->; done). lia.
Qed.

Lemma sum_Z_fmap_zero {B} (f : B → Z) (l : list B) :
  (∀ x, f x = 0) → sum_Z (f <$> l) = 0.
Proof.
  intros Hf. induction l as [|x l IH]; [done|]. rewrite fmap_cons, sum_Z_cons, IH, Hf. done.
Qed.

Lemma sum_counts (df : list A) (keys : list Z) :
  NoDup keys → (∀ x, x ∈ df → uid x ∈ keys) →
  sum_Z (label_count uid df <$> keys) = Z.of_nat (length df).
Proof.
  intros Hnd. induction df as [|x df IH]; intros Hcov.
  { by apply sum_Z_fmap_zero. }
  assert (Hext : label_count uid (x :: df) <$> keys =
                 (λ u, (if decide (uid x = u) then 1 else 0) + label_count uid df u) <$> keys).
  { apply list_fmap_ext. intros _ u _. unfold label_count. rewrite filter_cons.
    destruct (decide (uid x = u)); simpl; lia. }
  rewrite Hext, sum_Z_fmap_add, sum_Z_indicator, IH.
  - rewrite count_key_NoDup; [simpl; lia|done|]. apply Hcov. by left.
  - intros y Hy. apply Hcov. by right.
Qed.

Lemma label_count_le (df : list A) u : 0 ≤ label_count uid df u ≤ Z.of_nat (length df).
Proof. unfold label_count. pose proof (length_filter (λ x, uid x = u) df). lia. Qed.

Lemma sum_group_sizes (df : list A) :
  Z.of_nat (length df) < 2 ^ 31 →
  group_sizes uid df = label_count uid df <$> unique (uid <$> df) ∧
  sum_Z (group_sizes uid df) = Z.of_nat (length df).
Proof.
  intros Hlen.
  assert (Hg : group_sizes uid df = label_count uid df <$> unique (uid <$> df)).
  { unfold group_sizes. apply list_fmap_ext. intros _ u _.
    pose proof (label_count_le df u). apply int32_small. lia. }
  split; [done|]. rewrite Hg. apply sum_counts; [apply NoDup_unique|].
  intros x Hx. apply elem_of_unique, list_elem_of_fmap. eauto.
Qed.

Lemma filter_none {B} (P : B → Prop) `{!∀ x, Decision (P x)} (l : list B) :
  (∀ x, x ∈ l → ¬ P x) → filter P l = [].
Proof.
  induction l as [|x l IH]; intros Hall; [done|].
  rewrite filter_cons_False by (apply Hall; by left).
  apply IH. intros y ?. apply Hall. by right.
Qed.

Lemma elem_of_ok_users (df : list A) u : u ∈ ok_users uid lab df ↔ mixed df u.
Proof.
  unfold ok_users, mixed. rewrite elem_of_list_to_set, list_elem_of_filter.
  split; [tauto|]. intros H. split; [done|].
  apply elem_of_unique. destruct (decide (u ∈ uid <$> df)) as [|Hn]; [done|].
  exfalso. unfold label_sum in H.
  rewrite (filter_none (λ x, uid x = u) df) in H; [unfold sum_Z in H; simpl in H; lia|].
  intros x Hx Hu. apply Hn, list_elem_of_fmap. eauto.
Qed.

Lemma filter_kept_user (df : list A) (P : Z → Prop) `{!∀ u, Decision (P u)} u :
  filter (λ x, uid x = u) (filter (λ x, P (uid x)) df) =
  if decide (P u) then filter (λ x, uid x = u) df else [].
Proof.
  rewrite list_filter_filter. case_decide as HP.
  - apply list_filter_iff. intros x. split; [tauto|]. intros <-. done.
  - apply filter_none. intros x _ [<- ?]. done.
Qed.

Lemma load_split_frame (df : list A) :
  Z.of_nat (length df) < 2 ^ 31 →
  load_split uid lab df =
    Passed (filter (λ x, mixed df (uid x)) df,
            label_count uid (filter (λ x, mixed df (uid x)) df)
              <$> unique (uid <$> filter (λ x, mixed df (uid x)) df)).
Proof.
  intros Hlen. unfold load_split.
  assert (Hf : filter (λ x, uid x ∈ ok_users uid lab df) df = filter (λ x, mixed df (uid x)) df).
  { apply list_filter_iff. intros x. apply elem_of_ok_users. }
  rewrite Hf. set (df' := filter (λ x, mixed df (uid x)) df).
  assert (Hlen' : Z.of_nat (length df') < 2 ^ 31).
  { pose proof (length_filter (λ x, mixed df (uid x)) df). unfold df'. lia. }
  destruct (sum_group_sizes df' Hlen') as [-> Hsum].
  by rewrite decide_True.
Qed.

Lemma mixed_after_filter (df : list A) u :
  mixed df u → mixed (filter (λ x, mixed df (uid x)) df) u.
Proof.
  intros Hm.
  assert (E : filter (λ x, uid x = u) (filter (λ x, mixed df (uid x)) df)
              = filter (λ x, uid x = u) df).
  { rewrite list_filter_filter. apply list_filter_iff.
    intros x. split; [tauto|]. intros <-. done. }
  unfold mixed, label_sum, label_count in *. by rewrite E.
Qed.

Lemma binary_has_one l : binary l → 0 < sum_Z l → 1 ∈ l.
Proof.
  induction l as [|x l IH]; [unfold sum_Z; simpl; lia|].
  intros [Hx Hl]%binary_cons. rewrite sum_Z_cons. destruct Hx as [->| ->].
  - intros ?. right. apply IH; [done|lia].
  - intros _. by left.
Qed.

Lemma binary_has_zero l : binary l → sum_Z l < Z.of_nat (length l) → 0 ∈ l.
Proof.
  induction l as [|x l IH]; [unfold sum_Z; simpl; lia|].
  intros [Hx Hl]%binary_cons. rewrite sum_Z_cons. destruct Hx as [->| ->].
  - intros _. by left.
  - intros ?. right. apply IH; [done|]. simpl in *. lia.
Qed.

(** X17.  On a frame of fewer than 2^31 rows the check of line 37 cannot
    fail: [load_split] returns the rows of the users whose label sum is
    positive and below their row count, in frame order, with one size per
    kept user; the sizes add up to the number of rows kept and each is at
    least 2.  Loading the returned frame again changes nothing. *)
Theorem load_split_assertion_holds (df : list A) :
  Z.of_nat (length df) < 2 ^ 31 →
  ∃ df' sizes,
    load_split uid lab df = Passed (df', sizes) ∧
    df' = filter (λ x, mixed df (uid x)) df ∧
    sum_Z sizes = Z.of_nat (length df') ∧
    length sizes = length (unique (uid <$> df')) ∧
    Forall (λ s, 2 ≤ s) sizes ∧
    load_split uid lab df' = Passed (df', sizes).
Proof.
  intros Hlen. eexists _, _. split; [by apply load_split_frame|].
  set (df' := filter (λ x, mixed df (uid x)) df).
  assert (Hlen' : Z.of_nat (length df') < 2 ^ 31).
  { pose proof (length_filter (λ x, mixed df (uid x)) df). unfold df'. lia. }
  assert (Hmixed : ∀ x, x ∈ df' → mixed df' (uid x)).
  { intros x [Hm _]%list_elem_of_filter. by apply mixed_after_filter. }
  split; [done|]. split; [|split; [|split]].
  - apply sum_counts; [apply NoDup_unique|].
    intros x Hx. apply elem_of_unique, list_elem_of_fmap. eauto.
  - by rewrite length_fmap.
  - apply Forall_fmap, Forall_forall. intros u Hu. simpl.
    apply elem_of_unique, list_elem_of_fmap in Hu as (x & -> & Hx).
    destruct (Hmixed x Hx) as [H0 H1]. lia.
  - rewrite load_split_frame by done.
    by rewrite (filter_True_id (λ x, mixed df' (uid x)) df').
Qed.

(** X18.  With labels 0 and 1, every row [load_split] returns is a row of
    the input whose user has, among the returned rows, at least one
    positive and at least one negative. *)
Theorem load_split_groups_have_both_labels (df : list A) df' sizes :
  (∀ x, x ∈ df → lab x = 0 ∨ lab x = 1) →
  Z.of_nat (length df) < 2 ^ 31 →
  load_split uid lab df = Passed (df', sizes) →
  ∀ x, x ∈ df' →
    x ∈ df ∧
    (∃ p, p ∈ df' ∧ uid p = uid x ∧ lab p = 1) ∧
    (∃ n, n ∈ df' ∧ uid n = uid x ∧ lab n = 0).
Proof.
  intros Hbin Hlen. rewrite load_split_frame by done. intros [= <- <-] x Hx.
  pose proof Hx as [Hm Hxin]%list_elem_of_filter. split; [done|].
  set (rows := filter (λ y, uid y = uid x) df).
  assert (Hb : binary (lab <$> rows)).
  { intros v (y & -> & [_ Hy]%list_elem_of_filter)%list_elem_of_fmap. by apply Hbin. }
  assert (Hin : ∀ y, y ∈ rows → y ∈ filter (λ x, mixed df (uid x)) df ∧ uid y = uid x).
  { intros y [Hu Hy]%list_elem_of_filter. split; [|done].
    apply list_elem_of_filter. by rewrite Hu. }
  destruct Hm as [H0 H1]. unfold label_sum, label_count in H0, H1. fold rows in H0, H1.
  split.
  - apply binary_has_one in H0 as (p & Hp & Hpin)%list_elem_of_fmap; [|done].
    destruct (Hin p Hpin). eauto.
  - assert (Hz : 0 ∈ lab <$> rows)
      by (apply binary_has_zero; [done|by rewrite length_fmap]).
    apply list_elem_of_fmap in Hz as (n & Hn & Hnin). destruct (Hin n Hnin). eauto.
Qed.

Lemma contiguous_filter (P : Z → Prop) `{!∀ u, Decision (P u)} l :
  contiguous l → contiguous (filter P l).
Proof.
  induction l as [|u l IH]; [done|]. intros [Hc Hu]. rewrite filter_cons.
  destruct (decide (P u)) as [HP|HP]; [|by apply IH].
  split; [by apply IH|]. intros v Hv Hne [_ Hin]%list_elem_of_filter.
  destruct l as [|w l]; [by apply elem_of_nil in Hin|].
  destruct (decide (w = u)) as [->|Hwu].
  - rewrite filter_cons_True in Hv by done. simpl in Hv. congruence.
  - by apply (Hu w).
Qed.

Lemma fmap_filter_uid (P : Z → Prop) `{!∀ u, Decision (P u)} (df : list A) :
  uid <$> filter (λ x, P (uid x)) df = filter P (uid <$> df).
Proof.
  induction df as [|x df IH]; [done|]. rewrite fmap_cons, !filter_cons.
  destruct (decide (P (uid x))); [rewrite fmap_cons|]; by rewrite IH.
Qed.

Lemma blocks_cons_other (df : list A) x (keys : list Z) :
  uid x ∉ keys →
  (λ u, filter (λ y, uid y = u) (x :: df)) <$> keys =
  (λ u, filter (λ y, uid y = u) df) <$> keys.
Proof.
  intros Hx. apply list_fmap_ext. intros _ u Hu%list_elem_of_lookup_2.
  rewrite filter_cons_False; [done|]. intros Heq. apply Hx. by rewrite Heq.
Qed.

Lemma concat_blocks (df : list A) :
  contiguous (uid <$> df) → concat (blocks uid df) = df.
Proof.
  unfold blocks. induction df as [|x df IH]; [done|].
  rewrite fmap_cons. intros [Hc Hx]. specialize (IH Hc).
  cbn [unique]. rewrite fmap_cons. cbn [concat].
  rewrite filter_cons_True by done.
  rewrite blocks_cons_other by (rewrite list_elem_of_filter; tauto).
  simpl. f_equal.
  destruct (decide (uid x ∈ uid <$> df)) as [Hin|Hnin].
  - destruct df as [|x' df']; [by apply elem_of_nil in Hin|].
    assert (Hsame : uid x' = uid x).
    { destruct (decide (uid x' = uid x)) as [|Hne]; [done|].
      exfalso. by apply (Hx (uid x')). }
    rewrite <- IH at 3. rewrite fmap_cons. cbn [unique]. rewrite fmap_cons. cbn [concat].
    rewrite Hsame. f_equal. f_equal.
    rewrite filter_cons_False by (intros H; by apply H). f_equal.
    apply filter_True_id. intros u [Hu _]%list_elem_of_filter. done.
  - rewrite (filter_none (λ y, uid y = uid x) df).
    2:{ intros y Hy Hu. apply Hnin, list_elem_of_fmap. eauto. }
    simpl. rewrite <- IH at 2. f_equal. f_equal.
    apply filter_True_id. intros u Hu Heq. rewrite elem_of_unique in Hu.
    apply Hnin. by rewrite <- Heq.
Qed.

(** X19.  When the rows of the input frame are contiguous by user, the
    returned frame is the concatenation of its users' blocks in order of
    first appearance and the group sizes are the lengths of these blocks,
    each block being the non-empty run of rows of one user: the sizes line
    up with the rows, as the ranking objective reads them. *)
Theorem load_split_sizes_match_blocks (df : list A) df' sizes :
  contiguous (uid <$> df) →
  Z.of_nat (length df) < 2 ^ 31 →
  load_split uid lab df = Passed (df', sizes) →
  concat (blocks uid df') = df' ∧
  sizes = (λ b, Z.of_nat (length b)) <$> blocks uid df' ∧
  ∀ b, b ∈ blocks uid df' → ∃ u, b ≠ [] ∧ ∀ x, x ∈ b → uid x = u.
Proof.
  intros Hc Hlen. rewrite load_split_frame by done. intros [= <- <-].
  split; [|split].
  - apply concat_blocks. rewrite (fmap_filter_uid (mixed df)).
    by apply contiguous_filter.
  - unfold blocks. by rewrite <- list_fmap_compose.
  - intros b (u & -> & Hu)%list_elem_of_fmap. exists u. split.
    + apply elem_of_unique, list_elem_of_fmap in Hu as (x & -> & Hx).
      intros Hnil. assert (Hin : x ∈ filter (λ y, uid y = uid x)
                                    (filter (λ x, mixed df (uid x)) df))
        by (by apply list_elem_of_filter).
      rewrite Hnil in Hin. by apply elem_of_nil in Hin.
    + intros x [Hx _]%list_elem_of_filter. done.
Qed.

End LoadSplitFacts.

(** The theorem at the sample frame. *)
Lemma load_split_assertion_holds_witness :
  ∃ df' sizes,
    load_split userId label split_frame = Passed (df', sizes) ∧
    df' = filter (λ x, mixed userId label split_frame (userId x)) split_frame ∧
    sum_Z sizes = Z.of_nat (length df') ∧
    length sizes = length (unique (userId <$> df')) ∧
    Forall (λ s, 2 ≤ s) sizes ∧
    load_split userId label df' = Passed (df', sizes).
Proof.
  apply (load_split_assertion_holds userId label split_frame).
  vm_compute. reflexivity.
Defined.

Lemma split_frame_binary x : x ∈ split_frame → label x = 0 ∨ label x = 1.
Proof.
  unfold split_frame. rewrite !elem_of_cons, elem_of_nil.
  intros H; repeat destruct H as [-> | H]; try done; simpl; auto.
Qed.

(** The theorem at the first row the sample frame keeps. *)
Lemma load_split_groups_have_both_labels_witness :
  mkPredRow 1 1 0 ∈ split_frame ∧
  (∃ p, p ∈ split_kept ∧ userId p = userId (mkPredRow 1 1 0) ∧ label p = 1) ∧
  (∃ n, n ∈ split_kept ∧ userId n = userId (mkPredRow 1 1 0) ∧ label n = 0).
Proof.
  apply (load_split_groups_have_both_labels userId label split_frame split_kept [2; 3]).
  - apply split_frame_binary.
  - vm_compute. reflexivity.
  - vm_compute. reflexivity.
  - by left.
Defined.

(** The theorem at the sample frame. *)
Lemma load_split_sizes_match_blocks_witness :
  concat (blocks userId split_kept) = split_kept ∧
  [2; 3] = (λ b, Z.of_nat (length b)) <$> blocks userId split_kept ∧
  ∀ b, b ∈ blocks userId split_kept → ∃ u, b ≠ [] ∧ ∀ x, x ∈ b → userId x = u.
Proof.
  apply (load_split_sizes_match_blocks userId label split_frame split_kept [2; 3]).
  - simpl. repeat split; intros v [= <-] Hne; try done; set_solver.
  - vm_compute. reflexivity.
  - vm_compute. reflexivity.
Defined.

(** ** A group scored at its best *)

(** X16.  In a group of at least [k ≥ 1] rows whose only positive has the
    strictly highest predicted score, MAP@k and NDCG@k are both 1. *)
Theorem single_top_positive_scores_one k g p :
  (1 ≤ k ≤ length g)%nat → (p < length g)%nat →
  label <$> g = one_hot (length g) p →
  (∀ i, (i < length g)%nat → i ≠ p →
        (score (pred <$> g) i < score (pred <$> g) p)%Q) →
  group_metrics k g = Ok (1%R, 1%R).
Proof. apply group_metrics_single_top. Qed.

Lemma group3_top i :
  (i < length group3)%nat → i ≠ 0%nat →
  (score (pred <$> group3) i < score (pred <$> group3) 0)%Q.
Proof.
  destruct i as [|[|[|i]]]; simpl; intros Hlt Hne; try done; try lia;
    vm_compute; reflexivity.
Qed.

(** The theorem at the scenario group with [k = 3]. *)
Lemma single_top_positive_scores_one_witness :
  group_metrics 3 group3 = Ok (1%R, 1%R).
Proof.
  apply (single_top_positive_scores_one 3 group3 0).
  - simpl. lia.
  - simpl. lia.
  - reflexivity.
  - apply group3_top.
Defined.

Lemma group3_binary x : x ∈ group3 → label x = 0 ∨ label x = 1.
Proof.
  unfold group3. rewrite !elem_of_cons, elem_of_nil.
  intros H; repeat destruct H as [-> | H]; try done; simpl; auto.
Qed.

(** The theorem at the scenario group with [k = 3]. *)
Lemma ndcg_between_0_and_1_witness :
  ∃ ap nd, group_metrics 3 group3 = Ok (ap, nd) ∧ (0 <= nd <= 1)%R.
Proof.
  exists 1%R, 1%R.
  assert (Hg : group_metrics 3 group3 = Ok (1%R, 1%R)).
  { apply (group_metrics_single_top 3 group3 0);
      [simpl; lia | simpl; lia | reflexivity | apply group3_top]. }
  split; [exact Hg|].
  apply (ndcg_between_0_and_1 3 group3 1 1); [apply group3_binary | exact Hg].
Defined.

(** The theorem at the scenario group with [k = 3]. *)
Lemma map_between_0_and_1_witness :
  ∃ ap nd, group_metrics 3 group3 = Ok (ap, nd) ∧ (0 <= ap <= 1)%R.
Proof.
  exists 1%R, 1%R.
  assert (Hg : group_metrics 3 group3 = Ok (1%R, 1%R)).
  { apply (group_metrics_single_top 3 group3 0);
      [simpl; lia | simpl; lia | reflexivity | apply group3_top]. }
  split; [exact Hg|].
  apply (map_between_0_and_1 3 group3 1 1);
    [apply group3_binary | simpl; lia | exact Hg].
Defined.

(** ** The evaluation of [main] *)

Section EvaluateFacts.
Context {A : Type} (uid : A → Z) (lab : A → Z) (predict : A → Q).

Local Abbreviation mixed := (LgbmSpec.mixed uid lab).
Local Abbreviation with_pred := (λ x, mkPredRow (uid x) (lab x) (predict x)).

Lemma filter_with_pred (df : list A) u :
  filter (λ r, userId r = u) (with_pred <$> df) = with_pred <$> filter (λ x, uid x = u) df.
Proof.
  induction df as [|x df IH]; [done|].
  rewrite fmap_cons, !filter_cons. cbn [userId].
  destruct (decide (uid x = u)); [rewrite fmap_cons|]; by rewrite IH.
Qed.

Lemma label_sum_with_pred (df : list A) u :
  (∀ x, x ∈ df → lab x = 0 ∨ lab x = 1) →
  sum_Z ((λ r, int8 (label r)) <$> filter (λ r, userId r = u) (with_pred <$> df)) =
  label_sum uid lab df u.
Proof.
  intros Hb. rewrite filter_with_pred. unfold label_sum. f_equal.
  rewrite <- list_fmap_compose. apply list_fmap_ext.
  intros _ x Hx%list_elem_of_lookup_2. apply list_elem_of_filter in Hx as [_ Hx].
  simpl. apply int8_small. destruct (Hb x Hx) as [-> | ->]; lia.
Qed.

(** X20.  After [load_split] of a frame with labels 0 and 1, the
    evaluation of [main] raises exactly when some group size returned by
    [load_split] is below [k], whatever the model predicts; it is then a
    [ValueError]. *)
Theorem evaluation_raises_on_short_groups (df : list A) df' sizes k :
  (∀ x, x ∈ df → lab x = 0 ∨ lab x = 1) →
  Z.of_nat (length df) < 2 ^ 31 →
  load_split uid lab df = Passed (df', sizes) →
  (evaluate uid lab predict df' k = Raise ValueError ↔
     ∃ s, s ∈ sizes ∧ s < Z.of_nat k) ∧
  (∀ e, evaluate uid lab predict df' k = Raise e → e = ValueError).
Proof.
  intros Hb Hlen. rewrite (load_split_frame uid lab) by done. intros [= <- <-].
  set (df' := filter (λ x, mixed df (uid x)) df).
  assert (Hb' : ∀ x, x ∈ df' → lab x = 0 ∨ lab x = 1).
  { intros x [_ Hx]%list_elem_of_filter. by apply Hb. }
  assert (Hmix : ∀ u, u ∈ uid <$> df' → mixed df' u).
  { intros u (x & -> & [Hm _]%list_elem_of_filter)%list_elem_of_fmap.
    by apply mixed_after_filter. }
  unfold evaluate.
  destruct (eval_metrics_raises (with_pred <$> df') k) as [Hiff Honly].
  split; [|exact Honly]. rewrite Hiff. clear Hiff Honly. split.
  - intros (u & Hu & _ & Hl). rewrite <- list_fmap_compose in Hu.
    change (userId ∘ with_pred) with uid in Hu.
    exists (label_count uid df' u). split.
    + apply list_elem_of_fmap. exists u. split; [done|]. by rewrite elem_of_unique.
    + unfold label_count. rewrite filter_with_pred, length_fmap in Hl. lia.
  - intros (s & (u & -> & Hu)%list_elem_of_fmap & Hs).
    rewrite elem_of_unique in Hu. exists u.
    rewrite <- list_fmap_compose. change (userId ∘ with_pred) with uid.
    split; [done|]. rewrite label_sum_with_pred by done.
    rewrite filter_with_pred, length_fmap.
    specialize (Hmix u Hu). unfold LgbmSpec.mixed in Hmix.
    unfold label_count in *. lia.
Qed.

End EvaluateFacts.

(** ** The means *)

Lemma mapM_out_Ok_Forall {A B} (f : A → outcome B) (P : B → Prop) l :
  (∀ x, x ∈ l → ∃ y, f x = Ok y ∧ P y) →
  ∃ ys, mapM_out f l = Ok ys ∧ length ys = length l ∧ Forall P ys.
Proof.
  induction l as [|x l IH]; intros Hall.
  { exists []. by repeat split. }
  destruct (Hall x) as (y & Hy & HP); [by left|].
  destruct IH as (ys & Hys & Hlen & HF); [intros z ?; apply Hall; by right|].
  exists (y :: ys). simpl. rewrite Hy. simpl. rewrite Hys. simpl.
  repeat split; [by rewrite Hlen|by constructor].
Qed.

Lemma sum_R_bounds (l : list R) :
  Forall (λ r, (0 <= r <= 1)%R) l → (0 <= sum_R l <= INR (length l))%R.
Proof.
  induction 1 as [|r l Hr _ IH].
  { unfold sum_R. simpl. lra. }
  change (sum_R (r :: l)) with (r + sum_R l)%R.
  change (length (r :: l)) with (S (length l)). rewrite S_INR. lra.
Qed.

Lemma np_mean_bounds (l : list R) :
  l ≠ [] → Forall (λ r, (0 <= r <= 1)%R) l →
  ∃ m, np_mean l = Finite m ∧ (0 <= m <= 1)%R.
Proof.
  intros Hne HF. destruct l as [|r l]; [done|].
  eexists. split; [reflexivity|].
  pose proof (sum_R_bounds _ HF) as Hs.
  assert (0 < INR (length (r :: l)))%R as Hpos.
  { apply lt_0_INR. simpl. lia. }
  split.
  - apply Rmult_le_reg_r with (INR (length (r :: l))); [done|].
    unfold Rdiv. rewrite Rmult_assoc, Rinv_l by lra. lra.
  - apply Rmult_le_reg_r with (INR (length (r :: l))); [done|].
    unfold Rdiv. rewrite Rmult_assoc, Rinv_l by lra. lra.
Qed.

(** X21.  On a non-empty frame with labels 0 and 1 in which every user has
    at least [k] rows, [eval_metrics] returns two numbers (no [nan], no
    exception), both between 0 and 1. *)
Theorem eval_metrics_means_in_unit_interval df_pred k :
  df_pred ≠ [] →
  (∀ x, x ∈ df_pred → label x = 0 ∨ label x = 1) →
  (∀ x, x ∈ df_pred → (k ≤ length (filter (λ y, userId y = userId x) df_pred))%nat) →
  ∃ m n, eval_metrics df_pred k = Ok (Finite m, Finite n) ∧
         (0 <= m <= 1)%R ∧ (0 <= n <= 1)%R.
Proof.
  intros Hne Hb Hk. unfold eval_metrics.
  destruct (mapM_out_Ok_Forall (λ ug : Z * list PredRow, group_metrics k ug.2)
              (λ s, (0 <= s.1 <= 1)%R ∧ (0 <= s.2 <= 1)%R) (groupby userId df_pred))
    as (scores & -> & Hlen & HF).
  { intros [u g] [Hu ->]%elem_of_groupby. simpl.
    set (g := filter (λ x, userId x = u) df_pred).
    assert (Hg : ∀ x, x ∈ g → label x = 0 ∨ label x = 1).
    { intros x [_ Hx]%list_elem_of_filter. by apply Hb. }
    assert (Hkg : (k ≤ length g)%nat).
    { apply list_elem_of_fmap in Hu as (x & -> & Hx). by apply Hk. }
    destruct (group_metrics k g) as [[ap nd]|e] eqn:Hgm.
    - exists (ap, nd). split; [done|]. simpl. split.
      + by apply (group_map_bounds k g ap nd).
      + by apply (group_ndcg_bounds k g ap nd).
    - exfalso. destruct (group_metrics_raises_iff k g) as [Hiff Honly].
      pose proof (Honly e Hgm) as ->. apply Hiff in Hgm. lia. }
  simpl.
  assert (Hsc : scores ≠ []).
  { intros ->. simpl in Hlen. symmetry in Hlen. apply length_zero_iff_nil in Hlen.
    destruct df_pred as [|x df]; [done|].
    destruct (groupby_covers userId (x :: df) x) as (g & Hin & _); [by left|].
    rewrite Hlen in Hin. by apply elem_of_nil in Hin. }
  destruct (np_mean_bounds (scores.*1)) as (m & -> & Hm).
  { by destruct scores. }
  { apply Forall_fmap. eapply Forall_impl; [exact HF|]. by intros s [? _]. }
  destruct (np_mean_bounds (scores.*2)) as (n & -> & Hn).
  { by destruct scores. }
  { apply Forall_fmap. eapply Forall_impl; [exact HF|]. by intros s [_ ?]. }
  by exists m, n.
Qed.

(** The theorem at the sample frame, with a model that predicts the stored
    score and [k = 3]. *)
Lemma evaluation_raises_on_short_groups_witness :
  (evaluate userId label pred split_kept 3 = Raise ValueError ↔
     ∃ s, s ∈ [2; 3] ∧ s < Z.of_nat 3) ∧
  (∀ e, evaluate userId label pred split_kept 3 = Raise e → e = ValueError).
Proof.
  apply (evaluation_raises_on_short_groups userId label pred split_frame split_kept [2; 3] 3).
  - apply split_frame_binary.
  - vm_compute. reflexivity.
  - vm_compute. reflexivity.
Defined.

(** The theorem at the scenario group with [k = 3]. *)
Lemma eval_metrics_means_in_unit_interval_witness :
  ∃ m n, eval_metrics group3 3 = Ok (Finite m, Finite n) ∧
         (0 <= m <= 1)%R ∧ (0 <= n <= 1)%R.
Proof.
  apply (eval_metrics_means_in_unit_interval group3 3).
  - done.
  - apply group3_binary.
  - unfold group3. intros x Hx. rewrite !elem_of_cons, elem_of_nil in Hx.
    repeat destruct Hx as [-> | Hx]; try done; simpl; lia.
Defined.

End LgbmFacts.
